(** * Class-name extraction engine of the design-system assistant

    A shallow embedding of the SCSS class-name extraction code of the
    language server ([parseScssFiles] and its helpers) together with the
    fragment of the JavaScript runtime it relies on: strings as sequences
    of UTF-16 code units, [String.prototype.split]/[trim]/[replace],
    backtracking regular expressions with capture groups, insertion-ordered
    [Set]s and plain objects used as dictionaries (own properties in the
    order [Object.keys] lists them, and the prototype an assignment to
    [__proto__] installs).

    The files are given by their texts: reading them is the caller's
    business.  Module [Engine] is the current version of the engine,
    module [ServerTs] the earlier one kept in [src/server.ts]. *)

From Stdlib Require Import String Ascii DecimalString.
From Stdlib Require Import List NArith Bool Arith Lia.
Import ListNotations.

Set Implicit Arguments.

(** ** The JavaScript runtime fragment *)

Module Js.

(** A JavaScript string is a sequence of 16-bit code units. *)
Definition char := N.
Bind Scope N_scope with char.
Definition jsstring := list char.

Definition chr (a : ascii) : char := N_of_ascii a.
Arguments chr a%_char.

Definition str (s : string) : jsstring := map N_of_ascii (list_ascii_of_string s).
Arguments str s%_string.

(** The double quote, which cannot be written inside a literal. *)
Definition dquote : char := 34%N.
Definition squote : char := 39%N.

Fixpoint streq (a b : jsstring) : bool :=
  match a, b with
  | [], [] => true
  | x :: a', y :: b' => N.eqb x y && streq a' b'
  | _, _ => false
  end.

(** *** Character classes *)

Definition between (lo hi c : char) : bool := N.leb lo c && N.leb c hi.

(** [\s]: WhiteSpace and LineTerminator of ECMAScript. *)
Definition is_space (c : char) : bool :=
  between 9 13 c || N.eqb c 32 || N.eqb c 160 || N.eqb c 5760
  || between 8192 8202 c || N.eqb c 8232 || N.eqb c 8233 || N.eqb c 8239
  || N.eqb c 8287 || N.eqb c 12288 || N.eqb c 65279.

(** LineTerminator: LF, CR, LS, PS; the characters [.] refuses. *)
Definition is_line_terminator (c : char) : bool :=
  N.eqb c 10 || N.eqb c 13 || N.eqb c 8232 || N.eqb c 8233.

(** [[0-9]] and [\d]. *)
Definition is_digit (c : char) : bool := between 48 57 c.

(** [[a-zA-Z0-9_-]]. *)
Definition is_ident (c : char) : bool :=
  between 97 122 c || between 65 90 c || is_digit c || N.eqb c 95 || N.eqb c 45.

(** [.] without the [s] flag. *)
Definition is_dot (c : char) : bool := negb (is_line_terminator c).

(** [[\s\S]]. *)
Definition is_any (c : char) : bool := is_space c || negb (is_space c).

(** The class of the two quote characters, single and double. *)
Definition is_quote (c : char) : bool := N.eqb c squote || N.eqb c dquote.

(** *** String methods *)

(** [s.split(sep)] for a one-character separator: never empty, the empty
    string gives one empty piece. *)
Fixpoint split (sep : char) (s : jsstring) : list jsstring :=
  match s with
  | [] => [[]]
  | c :: t =>
      if N.eqb c sep then [] :: split sep t
      else match split sep t with
           | piece :: pieces => (c :: piece) :: pieces
           | [] => [[c]]
           end
  end.

Fixpoint trimStart (s : jsstring) : jsstring :=
  match s with
  | c :: t => if is_space c then trimStart t else s
  | [] => []
  end.

Definition trimEnd (s : jsstring) : jsstring := rev (trimStart (rev s)).

(** [s.trim()]. *)
Definition trim (s : jsstring) : jsstring := trimEnd (trimStart s).

(** [s.replace(q, '')] where [q] is the global pattern of the two quote
    characters: every quote is deleted. *)
Definition stripQuotes (s : jsstring) : jsstring :=
  filter (fun c => negb (is_quote c)) s.

(** The same with the dollar sign added to the class. *)
Definition stripQuotesAndSigil (s : jsstring) : jsstring :=
  filter (fun c => negb (is_quote c || N.eqb c (chr "$"))) s.

Fixpoint startsWith (s prefix : jsstring) : bool :=
  match prefix, s with
  | [], _ => true
  | p :: prefix', c :: s' => N.eqb c p && startsWith s' prefix'
  | _ :: _, [] => false
  end.

(** *** Regular expressions

    The fragment the sources use: one-character atoms (literals and
    classes), the anchors, sequence, alternation, greedy and lazy
    repetition of a one-character atom, and capture groups.  Matching is
    by backtracking, in continuation-passing style, with the priorities of
    ECMAScript: the left alternative first, a greedy star the longest run
    first, a lazy star the shortest. *)

Inductive regex : Type :=
| Eps
| Chr (p : char -> bool)
| Bol
| Eol
| Seq (r1 r2 : regex)
| Alt (r1 r2 : regex)
| Star (greedy : bool) (p : char -> bool)
| Group (r : regex).

Definition Lit (c : char) : regex := Chr (N.eqb c).
Definition Plus (p : char -> bool) : regex := Seq (Chr p) (Star true p).

Fixpoint sequence (rs : list regex) : regex :=
  match rs with
  | [] => Eps
  | [r] => r
  | r :: rs' => Seq r (sequence rs')
  end.

Definition lits (s : jsstring) : regex := sequence (map Lit s).

(** A position in the subject: its index and the text from there on. *)
Record cursor : Type := mkCursor { pos : nat; rest : jsstring }.

(** Captures are kept in reverse order of their opening parenthesis while
    matching, so that reversing the list numbers the groups from 1. *)
Definition outcome : Type := option (list jsstring * cursor).
Definition cont : Type := list jsstring -> cursor -> outcome.

Definition orElse (a : outcome) (b : outcome) : outcome :=
  match a with Some x => Some x | None => b end.

Fixpoint star_greedy (p : char -> bool) (k : cursor -> outcome) (i : nat)
         (s : jsstring) : outcome :=
  match s with
  | c :: t =>
      if p c then
        match star_greedy p k (S i) t with
        | Some x => Some x
        | None => k (mkCursor i s)
        end
      else k (mkCursor i s)
  | [] => k (mkCursor i [])
  end.

Fixpoint star_lazy (p : char -> bool) (k : cursor -> outcome) (i : nat)
         (s : jsstring) : outcome :=
  match k (mkCursor i s) with
  | Some x => Some x
  | None =>
      match s with
      | c :: t => if p c then star_lazy p k (S i) t else None
      | [] => None
      end
  end.

Fixpoint m (r : regex) (k : cont) (caps : list jsstring) (cur : cursor) : outcome :=
  match r with
  | Eps => k caps cur
  | Chr p =>
      match rest cur with
      | c :: t => if p c then k caps (mkCursor (S (pos cur)) t) else None
      | [] => None
      end
  | Bol => if Nat.eqb (pos cur) 0 then k caps cur else None
  | Eol => match rest cur with [] => k caps cur | _ :: _ => None end
  | Seq r1 r2 => m r1 (m r2 k) caps cur
  | Alt r1 r2 => orElse (m r1 k caps cur) (m r2 k caps cur)
  | Star g p =>
      (if g then star_greedy else star_lazy) p (k caps) (pos cur) (rest cur)
  | Group r1 =>
      m r1 (fun caps' cur' =>
              k (firstn (length caps' - length caps) caps'
                 ++ firstn (pos cur' - pos cur) (rest cur) :: caps) cur')
        caps cur
  end.

Definition accept : cont := fun caps cur => Some (caps, cur).

(** One attempt at the position of the cursor. *)
Definition matchAt (r : regex) (cur : cursor) : outcome := m r accept [] cur.

(** The leftmost position from the cursor on at which the pattern matches. *)
Fixpoint search (r : regex) (i : nat) (s : jsstring) : outcome :=
  match matchAt r (mkCursor i s) with
  | Some x => Some x
  | None =>
      match s with
      | _ :: t => search r (S i) t
      | [] => None
      end
  end.

(** [re.test(s)] for a pattern without the [g] flag. *)
Definition test (r : regex) (s : jsstring) : bool :=
  match search r 0 s with Some _ => true | None => false end.

(** [re.exec(s)] for a pattern without the [g] flag: the groups of the
    first match, group 1 first. *)
Definition exec (r : regex) (s : jsstring) : option (list jsstring) :=
  match search r 0 s with
  | Some (caps, _) => Some (rev caps)
  | None => None
  end.

(** [while ((m = re.exec(s)) !== null) ...] for a pattern with the [g]
    flag: every iteration resumes at [lastIndex], the end of the previous
    match.  The list holds the groups of each match, group 1 first.  The
    loop is bounded by the length of the text: see [execLoop_fuel] for the
    patterns of the sources, whose matches are never empty. *)
Fixpoint execLoop (fuel : nat) (r : regex) (i : nat) (s : jsstring)
  : list (list jsstring) :=
  match fuel with
  | O => []
  | S fuel' =>
      match search r i s with
      | Some (caps, cur) => rev caps :: execLoop fuel' r (pos cur) (rest cur)
      | None => []
      end
  end.

Definition execAll (r : regex) (s : jsstring) : list (list jsstring) :=
  execLoop (S (length s)) r 0 s.

(** [match[n]] of a match array. *)
Definition group (n : nat) (groups : list jsstring) : jsstring :=
  nth (n - 1) groups [].

(** The matches of a pattern, declaratively: [matches r i w s' c] when [r]
    matches the text [w] at index [i] of a subject that continues with
    [s'], its groups capturing [c] (in the order of [m]). *)
Inductive matches : regex -> nat -> jsstring -> jsstring -> list jsstring -> Prop :=
| M_Eps i s' : matches Eps i [] s' []
| M_Chr p c i s' : p c = true -> matches (Chr p) i [c] s' []
| M_Bol s' : matches Bol 0 [] s' []
| M_Eol i : matches Eol i [] [] []
| M_Seq r1 r2 i w1 w2 s' c1 c2 :
    matches r1 i w1 (w2 ++ s') c1 ->
    matches r2 (i + length w1) w2 s' c2 ->
    matches (Seq r1 r2) i (w1 ++ w2) s' (c2 ++ c1)
| M_AltL r1 r2 i w s' c : matches r1 i w s' c -> matches (Alt r1 r2) i w s' c
| M_AltR r1 r2 i w s' c : matches r2 i w s' c -> matches (Alt r1 r2) i w s' c
| M_Star g p i w s' : forallb p w = true -> matches (Star g p) i w s' []
| M_Group r i w s' c : matches r i w s' c -> matches (Group r) i w s' (c ++ [w]).

(** *** [Set<string>] *)

(** Insertion-ordered, duplicate-free; [Array.from] is the list itself. *)
Definition set_add (x : jsstring) (s : list jsstring) : list jsstring :=
  if existsb (streq x) s then s else s ++ [x].

(** *** Plain objects used as dictionaries *)

(** Own properties, in creation order. *)
Definition props (V : Type) : Type := list (jsstring * V).

Fixpoint lookup (V : Type) (k : jsstring) (o : props V) : option V :=
  match o with
  | [] => None
  | (k', v) :: o' => if streq k k' then Some v else lookup k o'
  end.

(** [o[k] = v] on an own data property: an existing key keeps its place. *)
Fixpoint assign (V : Type) (k : jsstring) (v : V) (o : props V) : props V :=
  match o with
  | [] => [(k, v)]
  | (k', v') :: o' =>
      if streq k k' then (k', v) :: o' else (k', v') :: assign k v o'
  end.

(** An array index is the canonical decimal form of an integer below
    2^32 - 1; [Object.keys] lists such keys first, in ascending order,
    and the other keys after them in creation order. *)
Definition digits_value (s : jsstring) : N :=
  fold_left (fun acc c => acc * 10 + (c - 48))%N s 0%N.

Definition is_array_index (s : jsstring) : bool :=
  match s with
  | [] => false
  | c :: t =>
      forallb is_digit s
      && (negb (N.eqb c 48) || match t with [] => true | _ :: _ => false end)
      && N.leb (digits_value s) 4294967294
  end.

Fixpoint insert_index (k : jsstring) (l : list jsstring) : list jsstring :=
  match l with
  | [] => [k]
  | h :: t =>
      if N.leb (digits_value k) (digits_value h) then k :: l
      else h :: insert_index k t
  end.

Definition ownKeys (V : Type) (o : props V) : list jsstring :=
  let keys := map fst o in
  fold_right insert_index [] (filter is_array_index keys)
  ++ filter (fun k => negb (is_array_index k)) keys.

(** The result object of [parseVariableContent]: an object literal whose
    values are strings or [undefined] ([None]). *)
Definition mapObject : Type := props (option jsstring).

Definition proto_name : jsstring := str "__proto__".

(** [result[key] = value] where [value] is a string or [undefined]: the
    inherited setter of [__proto__] ignores a value that is not an object,
    so that key never becomes an own property. *)
Definition mapObject_set (key : jsstring) (value : option jsstring)
           (result : mapObject) : mapObject :=
  if streq key proto_name then result else assign key value result.

(** The object [variables]: an object literal holding one [mapObject] per
    declared name.  Its prototype is [Object.prototype] ([None]) until an
    assignment to [__proto__] replaces it with a [mapObject]. *)
Record dictionary : Type :=
  mkDictionary { own : props mapObject; proto : option mapObject }.

Definition emptyObject : dictionary := mkDictionary [] None.

(** [variables[name] = o] where [o] is an object. *)
Definition dictionary_set (name : jsstring) (o : mapObject) (d : dictionary)
  : dictionary :=
  if streq name proto_name then mkDictionary (own d) (Some o)
  else mkDictionary (assign name o (own d)) (proto d).

(** What [variables[name]] can evaluate to. *)
Inductive value : Type :=
| VUndefined
| VString (s : jsstring)
| VMap (o : mapObject)
| VBuiltin.  (* Object.prototype or one of its methods *)

Definition objectPrototype_members : list jsstring :=
  [ str "constructor"; str "hasOwnProperty"; str "isPrototypeOf";
    str "propertyIsEnumerable"; str "toLocaleString"; str "toString";
    str "valueOf"; str "__defineGetter__"; str "__defineSetter__";
    str "__lookupGetter__"; str "__lookupSetter__" ].

(** Lookup in [Object.prototype] on behalf of the dictionary [d]: the
    getter of [__proto__] answers the prototype of [d]. *)
Definition objectPrototype_get (d : dictionary) (name : jsstring) : value :=
  if streq name proto_name then
    match proto d with Some p => VMap p | None => VBuiltin end
  else if existsb (streq name) objectPrototype_members then VBuiltin
  else VUndefined.

(** [variables[name]]: own properties, then the prototype chain. *)
Definition get (d : dictionary) (name : jsstring) : value :=
  match lookup name (own d) with
  | Some o => VMap o
  | None =>
      match proto d with
      | Some p =>
          match lookup name p with
          | Some (Some s) => VString s
          | Some None => VUndefined
          | None => objectPrototype_get d name
          end
      | None => objectPrototype_get d name
      end
  end.

(** [if (v)]. *)
Definition truthy (v : value) : bool :=
  match v with
  | VUndefined => false
  | VString [] => false
  | VString (_ :: _) => true
  | VMap _ => true
  | VBuiltin => true
  end.

Definition decimal (n : nat) : jsstring :=
  str (NilEmpty.string_of_uint (Nat.to_uint n)).

(** [Object.keys(v)] for a truthy [v]: the keys of a string are its
    indices; the built-in objects have no enumerable own property. *)
Definition objectKeys (v : value) : list jsstring :=
  match v with
  | VMap o => ownKeys o
  | VString s => map decimal (List.seq 0 (length s))
  | VUndefined => []
  | VBuiltin => []
  end.

End Js.

(** ** The extraction engine ([server.ts], current version) *)

Module Engine.
Import Js.

Definition invalidPatterns : list regex :=
  [ Seq Bol (Lit (chr "$"));                      (* Starts with $ *)
    Seq Bol (Lit (chr "#"));                      (* Starts with # *)
    Alt (Lit (chr "$")) (Lit (chr "%"));          (* Contains $ or % *)
    Seq Bol (Chr is_digit);                       (* Starts with a number *)
    Seq Bol (Lit (chr "-"));                      (* Starts with a hyphen *)
    Chr is_space;                                 (* Contains whitespace *)
    Chr (fun c => N.eqb c (chr "(") || N.eqb c (chr ")"));
                                                  (* Contains parentheses *)
    Seq (Lit (chr ";")) Eol;                      (* Ends with a semicolon *)
    sequence [Bol; Plus is_digit; Alt (lits (str "px")) (lits (str "rem")); Eol];
                                                  (* Just a size value *)
    sequence [Bol; Plus is_digit; Eol] ].         (* Just a number *)

Definition isValidClassName (name : jsstring) : bool :=
  negb (existsb (fun pattern => test pattern name) invalidPatterns).

Definition comma : char := chr ",".
Definition colon : char := chr ":".

Definition parseVariableContent (content : jsstring) : mapObject :=
  let entries := map trim (split comma content) in
  fold_left
    (fun result entry =>
       let parts := map trim (split colon entry) in
       let key := nth 0 parts [] in
       let value := nth_error parts 1 in
       mapObject_set (stripQuotes key) value result)
    entries [].

Definition addClassesFromVariable (content : jsstring)
           (classNames : list jsstring) : list jsstring :=
  let entries := map trim (split comma content) in
  fold_left
    (fun classNames entry =>
       let key := nth 0 (split colon entry) [] in
       match key with
       | [] => classNames
       | _ :: _ =>
           let cleanKey := trim (stripQuotes key) in
           if isValidClassName cleanKey then set_add cleanKey classNames
           else classNames
       end)
    entries classNames.

(** The body shared by the single-map cases: every key of the map. *)
Definition addKeys (map : value) (classNames : list jsstring) : list jsstring :=
  fold_left
    (fun classNames key =>
       if isValidClassName key then set_add key classNames else classNames)
    (objectKeys map) classNames.

Definition processMixinCall (mixinName mixinArgs : jsstring)
           (variables : dictionary) (classNames : list jsstring)
  : list jsstring :=
  let args := map (fun arg => stripQuotes (trim arg)) (split comma mixinArgs) in
  if streq mixinName (str "ds4-scale-class") then
    if 3 <=? length args then
      let name := nth 0 args [] in
      let mapName := nth 1 args [] in
      let scalesName := nth 2 args [] in
      let map := get variables mapName in
      let scales := get variables scalesName in
      if truthy map && truthy scales then
        fold_left
          (fun classNames key =>
             fold_left
               (fun classNames scaleKey =>
                  let className := name ++ key ++ str "-" ++ scaleKey in
                  if isValidClassName className then set_add className classNames
                  else classNames)
               (objectKeys scales) classNames)
          (objectKeys map) classNames
      else classNames
    else classNames
  else if streq mixinName (str "ds4-scale-font-class")
          || streq mixinName (str "style-class") then
    if 2 <=? length args then
      let mapName := nth 1 args [] in
      let map := get variables mapName in
      if truthy map then addKeys map classNames else classNames
    else classNames
  else if streq mixinName (str "ds4-scale-border-radius-class")
          || streq mixinName (str "ds4-border-radius-class") then
    if 1 <=? length args then
      let mapName := nth 0 args [] in
      let map := get variables mapName in
      if truthy map then addKeys map classNames else classNames
    else classNames
  else classNames.

(** [/\$([a-zA-Z0-9_-]+):\s*\(([\s\S]*?)\)\s*!default;/g] *)
Definition variableRegex : regex :=
  sequence [ Lit (chr "$"); Group (Plus is_ident); Lit (chr ":");
             Star true is_space; Lit (chr "("); Group (Star false is_any);
             Lit (chr ")"); Star true is_space; lits (str "!default;") ].

(** [/@include\s+([a-zA-Z0-9_-]+)\((.*?)\);/g] *)
Definition mixinCallRegex : regex :=
  sequence [ lits (str "@include"); Plus is_space; Group (Plus is_ident);
             Lit (chr "("); Group (Star false is_dot); Lit (chr ")");
             Lit (chr ";") ].

(** [/\.([a-zA-Z0-9_-]+)\s*{/g] *)
Definition classRegex : regex :=
  sequence [ Lit (chr "."); Group (Plus is_ident); Star true is_space;
             Lit (chr "{") ].

(** The state the loop over the files threads: [variables] and
    [classNames], both declared before the loop. *)
Definition state : Type := (dictionary * list jsstring)%type.

Definition declareVariable (st : state) (variableMatch : list jsstring) : state :=
  let variableName := group 1 variableMatch in
  let variableContent := group 2 variableMatch in
  (dictionary_set variableName (parseVariableContent variableContent) (fst st),
   addClassesFromVariable variableContent (snd st)).

Definition expandMixin (variables : dictionary) (classNames : list jsstring)
           (mixinMatch : list jsstring) : list jsstring :=
  processMixinCall (group 1 mixinMatch) (group 2 mixinMatch) variables classNames.

Definition addSelector (classNames : list jsstring) (classMatch : list jsstring)
  : list jsstring :=
  if isValidClassName (group 1 classMatch) then
    set_add (group 1 classMatch) classNames
  else classNames.

(** The body of the loop over the files, for the text of one file. *)
Definition parseFile (st : state) (content : jsstring) : state :=
  let st1 := fold_left declareVariable (execAll variableRegex content) st in
  let classNames2 :=
    fold_left (expandMixin (fst st1)) (execAll mixinCallRegex content) (snd st1) in
  let classNames3 :=
    fold_left addSelector (execAll classRegex content) classNames2 in
  (fst st1, classNames3).

(** [parseScssFiles], on the texts [fs.readFileSync] returns for the files. *)
Definition parseScssFiles (files : list jsstring) : list jsstring :=
  snd (fold_left parseFile files (emptyObject, [])).

End Engine.

(** ** The earlier version of the engine ([src/server.ts]) *)

Module ServerTs.
Import Js.

Definition invalidPatterns : list regex :=
  [ Seq Bol (Lit (chr "$"));
    Seq Bol (Lit (chr "#"));
    Alt (Lit (chr "$")) (Lit (chr "%"));
    Seq Bol (Chr is_digit);
    Seq Bol (Lit (chr "-"));
    Chr is_space;
    Chr (fun c => N.eqb c (chr "(") || N.eqb c (chr ")"));
    Seq (Lit (chr ";")) Eol;
    sequence [Bol; Plus is_digit; Alt (lits (str "px")) (lits (str "rem")); Eol];
    sequence [Bol; Plus is_digit; Eol] ].

Definition isValidClassName (name : jsstring) : bool :=
  negb (existsb (fun pattern => test pattern name) invalidPatterns).

Definition comma : char := chr ",".
Definition colon : char := chr ":".

(** The [forEach] over the entries of a map body, written twice in the
    source: in the loop over the declarations and in
    [addClassesFromVariable]. *)
Definition addEntries (variableContent : jsstring) (classNames : list jsstring)
  : list jsstring :=
  let entries := map trim (split comma variableContent) in
  fold_left
    (fun classNames entry =>
       let key := nth 0 (split colon entry) [] in
       match key with
       | [] => classNames
       | _ :: _ =>
           let cleanKey := trim (stripQuotes key) in
           if isValidClassName cleanKey then set_add cleanKey classNames
           else classNames
       end)
    entries classNames.

(** The pattern [new RegExp] builds around [variableName].  The name is
    spliced into the pattern source unescaped; here it is read as literal
    text, which is what it means when all its characters are in
    [[a-zA-Z0-9_-]].  For any other name the result is [None]: such
    patterns are outside this model. *)
Definition variableRegexFor (variableName : jsstring) : option regex :=
  if forallb is_ident variableName then
    Some (sequence [ Lit (chr "$"); lits variableName; Lit (chr ":");
                     Star true is_space; Lit (chr "(");
                     Group (Group (Star false is_any));
                     Lit (chr ")"); Star true is_space; lits (str "!default;") ])
  else None.

Definition addClassesFromVariable (content variableName : jsstring)
           (classNames : list jsstring) : option (list jsstring) :=
  match variableRegexFor variableName with
  | None => None
  | Some variableRegex =>
      match exec variableRegex content with
      | Some groups => Some (addEntries (group 1 groups) classNames)
      | None => Some classNames
      end
  end.

(** [/\$([a-zA-Z0-9_-]+):\s*\(([\s\S]*?)\)\s*!default;/g] *)
Definition variableRegex : regex :=
  sequence [ Lit (chr "$"); Group (Plus is_ident); Lit (chr ":");
             Star true is_space; Lit (chr "("); Group (Star false is_any);
             Lit (chr ")"); Star true is_space; lits (str "!default;") ].

(** [/@include\s+([a-zA-Z0-9_-]+)\((.*?)\);/g] *)
Definition mixinCallRegex : regex :=
  sequence [ lits (str "@include"); Plus is_space; Group (Plus is_ident);
             Lit (chr "("); Group (Star false is_dot); Lit (chr ")");
             Lit (chr ";") ].

Definition bind (A B : Type) (x : option A) (f : A -> option B) : option B :=
  match x with Some a => f a | None => None end.

Definition processMixin (content : jsstring) (acc : option (list jsstring))
           (mixinMatch : list jsstring) : option (list jsstring) :=
  bind acc (fun classNames =>
    let mixinName := group 1 mixinMatch in
    let mixinArgs := group 2 mixinMatch in
    if startsWith mixinName (str "ds4-scale-")
       || streq mixinName (str "style-class") then
      let args := map trim (split comma mixinArgs) in
      let prefix := trim (stripQuotes (nth 0 args [])) in
      let classNames1 :=
        if isValidClassName prefix then set_add prefix classNames
        else classNames in
      if streq mixinName (str "style-class") && (1 <? length args) then
        let variableName := trim (stripQuotesAndSigil (nth 1 args [])) in
        addClassesFromVariable content variableName classNames1
      else Some classNames1
    else Some classNames).

Definition parseFile (acc : option (list jsstring)) (content : jsstring)
  : option (list jsstring) :=
  bind acc (fun classNames =>
    let classNames1 :=
      fold_left
        (fun classNames variableMatch =>
           addEntries (group 2 variableMatch) classNames)
        (execAll variableRegex content) classNames in
    fold_left (processMixin content) (execAll mixinCallRegex content)
      (Some classNames1)).

Definition parseScssFiles (files : list jsstring) : option (list jsstring) :=
  fold_left parseFile files (Some []).

End ServerTs.

(** ** The Validity Filter as the specification words it *)

Module Spec.
Import Js.

Definition begins_with (c : char) (s : jsstring) : Prop := exists t, s = c :: t.

Definition contains (c : char) (s : jsstring) : Prop := In c s.

Definition begins_with_digit (s : jsstring) : Prop :=
  exists d t, s = d :: t /\ is_digit d = true.

(** White space is what ECMAScript calls WhiteSpace and LineTerminator. *)
Definition contains_whitespace (s : jsstring) : Prop :=
  exists c, In c s /\ is_space c = true.

Definition ends_with (c : char) (s : jsstring) : Prop := exists t, s = t ++ [c].

(** One or more decimal digits. *)
Definition digits (s : jsstring) : Prop := s <> [] /\ forallb is_digit s = true.

Definition size_literal (s : jsstring) : Prop :=
  exists ds, digits ds /\ (s = ds ++ str "px" \/ s = ds ++ str "rem").

(** The candidate is rejected when any of the listed conditions holds. *)
Definition rejected (s : jsstring) : Prop :=
  begins_with (chr "$") s
  \/ begins_with (chr "#") s
  \/ (contains (chr "$") s \/ contains (chr "%") s)
  \/ begins_with_digit s
  \/ begins_with (chr "-") s
  \/ contains_whitespace s
  \/ (contains (chr "(") s \/ contains (chr ")") s)
  \/ ends_with (chr ";") s
  \/ size_literal s
  \/ digits s.

End Spec.

(** ** What the engine derives from a text, stated for the proofs *)

Module Yields.
Import Js Engine.

(** What one entry of a map body contributes. *)
Definition entryYields (entry c : jsstring) : Prop :=
  let key := nth 0 (split colon entry) [] in
  key <> [] /\ trim (stripQuotes key) = c /\ isValidClassName c = true.

(** The first component of [declareVariable]. *)
Definition declareTable (variables : dictionary) (variableMatch : list jsstring)
  : dictionary :=
  dictionary_set (group 1 variableMatch)
    (parseVariableContent (group 2 variableMatch)) variables.

(** What the text of one file contributes, given the state before it. *)
Definition fileYields (st : state) (content c : jsstring) : Prop :=
  (exists variableMatch entry,
      In variableMatch (execAll variableRegex content)
      /\ In entry (map trim (split comma (group 2 variableMatch)))
      /\ entryYields entry c)
  \/ (exists mixinMatch,
         In mixinMatch (execAll mixinCallRegex content)
         /\ In c (expandMixin (fst (parseFile st content)) [] mixinMatch))
  \/ (exists classMatch,
         In classMatch (execAll classRegex content)
         /\ group 1 classMatch = c /\ isValidClassName c = true).

(** The table [variables] once the given files have been processed. *)
Definition tableAfter (files : list jsstring) : dictionary :=
  fst (fold_left parseFile files (emptyObject, [])).

(** The declarations the loop finds in the given files, in order. *)
Definition declarations (files : list jsstring) : list (list jsstring) :=
  flat_map (execAll variableRegex) files.

(** The text of a class selector opening a rule body. *)
Definition selector (id ws : jsstring) : jsstring :=
  chr "." :: id ++ ws ++ [chr "{"].
Arguments selector : simpl never.

(** The mixin names [processMixinCall] has a case for. *)
Definition conventionTable : list jsstring :=
  [ str "ds4-scale-class"; str "ds4-scale-font-class"; str "style-class";
    str "ds4-scale-border-radius-class"; str "ds4-border-radius-class" ].

(** The arguments of an invocation as [processMixinCall] reads them. *)
Definition mixinArguments (mixinArgs : jsstring) : list jsstring :=
  map (fun arg => stripQuotes (trim arg)) (split comma mixinArgs).

(** No declaration stored a map under this name. *)
Definition undeclared (variables : dictionary) (name : jsstring) : Prop :=
  lookup name (own variables) = None.

(** The text of an invocation up to its opening parenthesis. *)
Definition includeHead (ws name : jsstring) : jsstring :=
  str "@include" ++ ws ++ name ++ [chr "("].
Arguments includeHead : simpl never.

(** The text does not hold the two characters that close an invocation. *)
Definition unclosed (a : jsstring) : Prop :=
  forall x y, a <> x ++ str ");" ++ y.

(** A pattern none of whose matches is empty. *)
Definition progresses (r : regex) : Prop :=
  forall i w s' c, matches r i w s' c -> w <> [].

End Yields.

(** ** Stylesheets used as examples *)

Module Examples.
Import Js.

Definition newline : char := 10%N.

Definition quoted (s : jsstring) : jsstring := dquote :: s ++ [dquote].

Definition lines (ls : list jsstring) : jsstring :=
  concat (map (fun l => l ++ [newline]) ls).

Definition buttonPrimary : jsstring := str ".button-primary { color: red; }".

Definition spacingMap : jsstring := str "$spacing: (sm: 4px, lg: 16px) !default;".

(** The cross-product example of the specification. *)
Definition crossProduct : jsstring :=
  lines [ str "$color: (red: #f00, blue: #00f) !default;";
          str "$scale: (1: 1x, 2: 2x) !default;";
          str "@include ds4-scale-class(" ++ quoted (str "btn-")
            ++ str ", $color, $scale);" ].

(** The same with the two map names written without their sigil. *)
Definition crossProductBare : jsstring :=
  lines [ str "$color: (red: #f00, blue: #00f) !default;";
          str "$scale: (1: 1x, 2: 2x) !default;";
          str "@include ds4-scale-class(" ++ quoted (str "btn-")
            ++ str ", color, scale);" ].

(** Two units: the maps in the first, the invocation in the second. *)
Definition mapsUnit : jsstring :=
  lines [ str "$color: (red: #f00) !default;";
          str "$scale: (1: 1x) !default;" ].

Definition invocation : jsstring :=
  str "@include ds4-scale-class(" ++ quoted (str "btn-") ++ str ", color, scale);".

Definition invocationUnit : jsstring := lines [ invocation ].

(** Both in one unit. *)
Definition mapsAndInvocation : jsstring := mapsUnit ++ invocationUnit.

(** The same invocation with its argument list broken over two lines. *)
Definition brokenInvocationUnit : jsstring :=
  mapsUnit
  ++ lines [ str "@include ds4-scale-class(" ++ quoted (str "btn-") ++ str ",";
             str "  color, scale);" ].

(** A map whose body spans several lines. *)
Definition spacingMapLines : jsstring :=
  lines [ str "$spacing: ("; str "  sm: 4px,"; str "  lg: 16px"; str ") !default;" ].

(** An entry with nothing before its colon. *)
Definition emptyKeyMap : jsstring := str "$m: (: 4px) !default;".

(** An entry whose key is a pair of quotes. *)
Definition quotedEmptyKeyMap : jsstring :=
  str "$m: (" ++ quoted [] ++ str ": 4px) !default;".

(** A declaration named [__proto__] and an invocation that names a
    key of that map where a map name is expected. *)
Definition protoUnit : jsstring :=
  lines [ str "$__proto__: (red: #f00) !default;";
          str "@include ds4-scale-class(" ++ quoted (str "btn-")
            ++ str ", red, red);" ].

End Examples.

(** ** The completion handler *)

Module Host.
Import Js.

(** The one member of [CompletionItemKind] the server uses. *)
Inductive CompletionItemKind : Type := Class.

Record CompletionItem : Type :=
  mkCompletionItem { label : jsstring; kind : CompletionItemKind }.

(** The handler of [connection.onCompletion]: an item per collected class,
    whatever the position it is asked at. *)
Definition onCompletion (scssClasses : list jsstring) : list CompletionItem :=
  map (fun className => mkCompletionItem className Class) scssClasses.

End Host.

(** ** Further notions used to state properties of the code *)

Module More.
Import Js Engine Yields.

(** [b] is [a] with new, pairwise distinct elements appended. *)
Definition grows (a b : list jsstring) : Prop :=
  exists extra,
    b = a ++ extra /\ NoDup extra /\ (forall x, In x extra -> ~ In x a).

(** [[a-zA-Z_]]. *)
Definition is_name_start (c : char) : bool :=
  between 97 122 c || between 65 90 c || N.eqb c 95.

(** [invalidPatterns] without its first and its last two patterns. *)
Definition decidingPatterns : list regex :=
  [ Seq Bol (Lit (chr "#"));
    Alt (Lit (chr "$")) (Lit (chr "%"));
    Seq Bol (Chr is_digit);
    Seq Bol (Lit (chr "-"));
    Chr is_space;
    Chr (fun c => N.eqb c (chr "(") || N.eqb c (chr ")"));
    Seq (Lit (chr ";")) Eol ].

(** The entries of a map body, and the key and the value
    [parseVariableContent] reads from an entry. *)
Definition entriesOf (content : jsstring) : list jsstring :=
  map trim (split comma content).

Definition entryKey (entry : jsstring) : jsstring :=
  stripQuotes (nth 0 (map trim (split colon entry)) []).

Definition entryValue (entry : jsstring) : option jsstring :=
  nth_error (map trim (split colon entry)) 1.

(** The conventions that read one map. *)
Definition singleMapConventions : list jsstring :=
  [ str "ds4-scale-font-class"; str "style-class";
    str "ds4-scale-border-radius-class"; str "ds4-border-radius-class" ].

(** The conventions whose map name is the second argument. *)
Definition secondArgumentConventions : list jsstring :=
  [ str "ds4-scale-class"; str "ds4-scale-font-class"; str "style-class" ].

(** The conventions whose map name is the first argument. *)
Definition firstArgumentConventions : list jsstring :=
  [ str "ds4-scale-border-radius-class"; str "ds4-border-radius-class" ].

(** The accumulator [classNames] when the loop over the declarations of
    [content] ends, the files [earlier] having been processed before. *)
Definition afterDeclarations (earlier : list jsstring) (content : jsstring)
  : list jsstring :=
  snd (fold_left declareVariable (execAll variableRegex content)
         (fold_left parseFile earlier (emptyObject, []))).

(** The text of a declaration. *)
Definition declarationText (name ws body ws' : jsstring) : jsstring :=
  chr "$" :: name ++ chr ":" :: ws ++ chr "(" :: body ++ chr ")" :: ws'
  ++ str "!default;".
Arguments declarationText : simpl never.

(** The text of an invocation. *)
Definition invocationText (ws name args : jsstring) : jsstring :=
  str "@include" ++ ws ++ name ++ chr "(" :: args ++ str ");".
Arguments invocationText : simpl never.

(** The text holds the given text somewhere. *)
Definition holds (needle text : jsstring) : Prop :=
  exists a b, text = a ++ needle ++ b.

(** A map in the table: stored under a name or installed as prototype. *)
Definition stored (variables : dictionary) (o : mapObject) : Prop :=
  (exists name, lookup name (own variables) = Some o) \/ proto variables = Some o.

(** Every non-empty key that passes the filter, of every map in the
    table, is in the accumulator. *)
Definition covered (st : state) : Prop :=
  forall o, stored (fst st) o ->
  forall k, In k (ownKeys o) -> k <> [] -> isValidClassName k = true ->
            In k (snd st).

(** A declaration as it is written, followed by the text up to the next
    one. *)
Record declaration : Type :=
  mkDeclaration { d_name : jsstring; d_ws : jsstring; d_body : jsstring;
                  d_ws' : jsstring; d_gap : jsstring }.

Definition wellFormedDeclaration (d : declaration) : Prop :=
  d_name d <> [] /\ forallb is_ident (d_name d) = true
  /\ forallb is_space (d_ws d) = true /\ forallb is_space (d_ws' d) = true
  /\ ~ In (chr ")") (d_body d) /\ ~ In (chr "$") (d_gap d).

(** The text of a file: some text, then declarations, each followed by
    some text. *)
Definition declarationsText (gap0 : jsstring) (ds : list declaration) : jsstring :=
  gap0
  ++ concat (map (fun d => declarationText (d_name d) (d_ws d) (d_body d) (d_ws' d)
                           ++ d_gap d) ds).

(** An invocation as it is written, followed by the text up to the next
    one. *)
Record invocation : Type :=
  mkInvocation { i_ws : jsstring; i_name : jsstring; i_args : jsstring;
                 i_gap : jsstring }.

Definition wellFormedInvocation (v : invocation) : Prop :=
  i_ws v <> [] /\ forallb is_space (i_ws v) = true
  /\ i_name v <> [] /\ forallb is_ident (i_name v) = true
  /\ forallb is_dot (i_args v) = true /\ unclosed (i_args v)
  /\ ~ In (chr "@") (i_gap v).

Definition invocationsText (gap0 : jsstring) (vs : list invocation) : jsstring :=
  gap0
  ++ concat (map (fun v => invocationText (i_ws v) (i_name v) (i_args v)
                           ++ i_gap v) vs).

(** Where the text continues with a character outside the class, or ends. *)
Definition stops (p : char -> bool) (t : jsstring) : Prop :=
  match t with [] => True | x :: _ => p x = false end.

(** The declaration stores a map under the name [k]. *)
Definition assigns (k : jsstring) (d : list jsstring) : bool :=
  negb (streq (group 1 d) proto_name) && streq k (group 1 d).

(** [b] is [a] with new, distinct strings appended, each of which passes
    the filter. *)
Definition admits (a b : list jsstring) : Prop :=
  grows a b /\ (forall c, In c b -> In c a \/ isValidClassName c = true).

(** The two runs of a step of the earlier engine, one from [a] and one
    from the empty accumulator, fail together, and when they succeed the
    first holds what [a] holds and what the second holds. *)
Definition sameYield (a : list jsstring) (x y : option (list jsstring)) : Prop :=
  match x, y with
  | Some a', Some new => forall c, In c a' <-> In c a \/ In c new
  | None, None => True
  | _, _ => False
  end.

(** Further stylesheets used as examples. *)
Definition paletteUnit : jsstring :=
  str "$palette: (primary: #00f, 2: x, primary: #f00) !default;".

Definition fontUnit : jsstring :=
  str "$sizes: (sm: 1, lg: 2) !default; @include ds4-scale-font-class(font-, sizes);".

Definition sigilUnit : jsstring :=
  str "$sizes: (sm: 1, lg: 2) !default; @include style-class(font-, $sizes);".

Definition plainMapUnit : jsstring := str "$spacing: (sm: 4px, lg: 16px);".

End More.

(** ** Facts about the runtime fragment *)

Module JsFacts.
Import Js.

Lemma streq_eq (a b : jsstring) : streq a b = true <-> a = b.
Proof.
  revert b; induction a as [|x a IH]; intros [|y b]; simpl; split;
    try congruence; try reflexivity.
  - intros H. apply andb_prop in H as [H1 H2].
    apply N.eqb_eq in H1. apply IH in H2. congruence.
  - intros H. injection H as -> ->.
    rewrite N.eqb_refl. simpl. now apply IH.
Qed.

Lemma streq_refl (a : jsstring) : streq a a = true.
Proof. now apply streq_eq. Qed.

(** *** The matcher against the declarative reading *)

Lemma star_greedy_sound p k : forall s i res,
  star_greedy p k i s = Some res ->
  exists w s', s = w ++ s' /\ forallb p w = true
               /\ k (mkCursor (i + length w) s') = Some res.
Proof.
  induction s as [|c t IH]; intros i res H; simpl in H.
  - exists [], []. rewrite Nat.add_0_r. auto.
  - destruct (p c) eqn:Hp.
    + destruct (star_greedy p k (S i) t) as [x|] eqn:Hs.
      * injection H as ->. apply IH in Hs as (w & s' & -> & Hw & Hk).
        exists (c :: w), s'. simpl. rewrite Hp, Hw.
        rewrite <- plus_n_Sm. auto.
      * exists [], (c :: t). rewrite Nat.add_0_r. auto.
    + exists [], (c :: t). rewrite Nat.add_0_r. auto.
Qed.

Lemma star_lazy_sound p k : forall s i res,
  star_lazy p k i s = Some res ->
  exists w s', s = w ++ s' /\ forallb p w = true
               /\ k (mkCursor (i + length w) s') = Some res.
Proof.
  induction s as [|c t IH]; intros i res H; simpl in H.
  - destruct (k (mkCursor i [])) eqn:Hk; [|discriminate].
    exists [], []. rewrite Nat.add_0_r. injection H as ->. auto.
  - destruct (k (mkCursor i (c :: t))) eqn:Hk.
    + injection H as ->. exists [], (c :: t). rewrite Nat.add_0_r. auto.
    + destruct (p c) eqn:Hp; [|discriminate].
      apply IH in H as (w & s' & -> & Hw & Hk').
      exists (c :: w), s'. simpl. rewrite Hp, Hw, <- plus_n_Sm. auto.
Qed.

Lemma firstn_app_exact (A : Type) (a b : list A) n :
  n = length a -> firstn n (a ++ b) = a.
Proof.
  intros ->. rewrite firstn_app, Nat.sub_diag, firstn_all. simpl.
  apply app_nil_r.
Qed.

Lemma m_sound r : forall k caps cur res,
  m r k caps cur = Some res ->
  exists w s' c,
    rest cur = w ++ s' /\ matches r (pos cur) w s' c
    /\ k (c ++ caps) (mkCursor (pos cur + length w) s') = Some res.
Proof.
  induction r as [ |p| | |r1 IH1 r2 IH2|r1 IH1 r2 IH2|g p|r1 IH1];
    intros k caps [i s] res H; simpl in *.
  - exists [], s, []. rewrite Nat.add_0_r. repeat split; auto. constructor.
  - destruct s as [|c t]; [discriminate|]. destruct (p c) eqn:Hp; [|discriminate].
    exists [c], t, []. rewrite Nat.add_1_r. repeat split; auto. now constructor.
  - destruct (Nat.eqb i 0) eqn:Hi; [|discriminate]. apply Nat.eqb_eq in Hi as ->.
    exists [], s, []. repeat split; auto. constructor.
  - destruct s; [|discriminate]. exists [], [], [].
    rewrite Nat.add_0_r. repeat split; auto. constructor.
  - apply IH1 in H as (w1 & s1 & c1 & E1 & M1 & H). simpl in *.
    apply IH2 in H as (w2 & s' & c2 & E2 & M2 & H). simpl in *. subst.
    exists (w1 ++ w2), s', (c2 ++ c1).
    rewrite <- !app_assoc, length_app, Nat.add_assoc.
    repeat split; auto. now constructor.
  - unfold orElse in H. destruct (m r1 k caps (mkCursor i s)) eqn:H1.
    + injection H as ->. apply IH1 in H1 as (w & s' & c & E & M & H).
      exists w, s', c. repeat split; auto. now apply M_AltL.
    + apply IH2 in H as (w & s' & c & E & M & H).
      exists w, s', c. repeat split; auto. now apply M_AltR.
  - assert (exists w s', s = w ++ s' /\ forallb p w = true
              /\ k caps (mkCursor (i + length w) s') = Some res)
      as (w & s' & E & Hw & Hk)
      by (destruct g; [eapply star_greedy_sound|eapply star_lazy_sound]; eauto).
    exists w, s', []. repeat split; auto. now constructor.
  - apply IH1 in H as (w & s' & c & E & M & H). simpl in *. subst.
    exists w, s', (c ++ [w]). repeat split; auto; [now constructor|].
    rewrite (@firstn_app_exact _ c caps) in H by (rewrite length_app; lia).
    rewrite (@firstn_app_exact _ w s') in H by lia.
    now rewrite <- app_assoc.
Qed.

Lemma star_greedy_complete p k : forall w s' i,
  forallb p w = true -> k (mkCursor (i + length w) s') <> None ->
  star_greedy p k i (w ++ s') <> None.
Proof.
  induction w as [|c w IH]; intros s' i Hw Hk; simpl in *.
  - rewrite Nat.add_0_r in Hk. destruct s' as [|c t]; simpl; auto.
    destruct (p c); auto. destruct (star_greedy p k (S i) t); auto. discriminate.
  - apply andb_prop in Hw as [Hc Hw]. rewrite Hc.
    rewrite <- plus_n_Sm in Hk. specialize (IH s' (S i) Hw Hk).
    destruct (star_greedy p k (S i) (w ++ s')); [discriminate|contradiction].
Qed.

Lemma star_lazy_complete p k : forall w s' i,
  forallb p w = true -> k (mkCursor (i + length w) s') <> None ->
  star_lazy p k i (w ++ s') <> None.
Proof.
  induction w as [|c w IH]; intros s' i Hw Hk; simpl in *.
  - rewrite Nat.add_0_r in Hk. destruct s' as [|c t]; simpl;
      destruct (k _); auto; try discriminate; contradiction.
  - apply andb_prop in Hw as [Hc Hw]. rewrite Hc.
    rewrite <- plus_n_Sm in Hk. specialize (IH s' (S i) Hw Hk).
    destruct (k (mkCursor i (c :: w ++ s'))); [discriminate|assumption].
Qed.

Lemma m_complete r i w s' c :
  matches r i w s' c ->
  forall k caps,
    k (c ++ caps) (mkCursor (i + length w) s') <> None ->
    m r k caps (mkCursor i (w ++ s')) <> None.
Proof.
  induction 1 as [i s'|p c i s' Hp|s'|i|r1 r2 i w1 w2 s' c1 c2 _ IH1 _ IH2
                 |r1 r2 i w s' c _ IH|r1 r2 i w s' c _ IH|g p i w s' Hw
                 |r i w s' c _ IH]; intros k caps Hk; simpl in *.
  - now rewrite Nat.add_0_r in Hk.
  - rewrite Hp. now rewrite Nat.add_1_r in Hk.
  - assumption.
  - now rewrite Nat.add_0_r in Hk.
  - rewrite <- app_assoc. apply IH1. apply IH2.
    now rewrite <- app_assoc, length_app, Nat.add_assoc in Hk.
  - specialize (IH k caps Hk). unfold orElse.
    destruct (m r1 k caps _); [discriminate|contradiction].
  - specialize (IH k caps Hk). unfold orElse.
    destruct (m r1 k caps _); [discriminate|assumption].
  - destruct g; [apply star_greedy_complete|apply star_lazy_complete]; auto.
  - apply IH. simpl.
    rewrite (@firstn_app_exact _ c caps) by (rewrite length_app; lia).
    rewrite (@firstn_app_exact _ w s') by lia.
    now rewrite <- app_assoc in Hk.
Qed.

Lemma matchAt_some r i s res :
  matchAt r (mkCursor i s) = Some res ->
  exists w s' c, s = w ++ s' /\ matches r i w s' c
                 /\ res = (c, mkCursor (i + length w) s').
Proof.
  intros H. apply m_sound in H as (w & s' & c & E & M & H). simpl in *.
  unfold accept in H. rewrite app_nil_r in H. injection H as <-.
  now exists w, s', c.
Qed.

Lemma matchAt_complete r i w s' c :
  matches r i w s' c -> matchAt r (mkCursor i (w ++ s')) <> None.
Proof. intros M. apply (m_complete M). discriminate. Qed.

Lemma search_sound r : forall s i res,
  search r i s = Some res ->
  exists pre s1,
    s = pre ++ s1
    /\ matchAt r (mkCursor (i + length pre) s1) = Some res
    /\ (forall pre1 pre2, pre = pre1 ++ pre2 -> pre2 <> [] ->
          matchAt r (mkCursor (i + length pre1) (pre2 ++ s1)) = None).
Proof.
  induction s as [|c t IH]; intros i res H; simpl in H.
  - exists [], []. simpl. rewrite Nat.add_0_r.
    destruct (matchAt r (mkCursor i [])); [|discriminate].
    repeat split; auto. intros [|] [|]; simpl; congruence.
  - destruct (matchAt r (mkCursor i (c :: t))) eqn:Hm.
    + exists [], (c :: t). simpl. rewrite Nat.add_0_r.
      repeat split; try congruence. intros [|] [|]; simpl; congruence.
    + apply IH in H as (pre & s1 & -> & Hs & Hfirst).
      exists (c :: pre), s1. simpl. rewrite <- plus_n_Sm.
      repeat split; auto.
      intros [|x pre1] pre2 E Hne; simpl in *.
      * rewrite Nat.add_0_r. subst pre2. exact Hm.
      * injection E as -> ->. rewrite <- plus_n_Sm.
        now apply (Hfirst pre1 pre2).
Qed.

Lemma search_none r : forall s i,
  search r i s = None ->
  forall pre s1, s = pre ++ s1 -> matchAt r (mkCursor (i + length pre) s1) = None.
Proof.
  induction s as [|c t IH]; intros i H pre s1 E; simpl in H.
  - destruct pre; [|discriminate]. simpl in *. subst s1. rewrite Nat.add_0_r.
    destruct (matchAt r (mkCursor i [])); congruence.
  - destruct (matchAt r (mkCursor i (c :: t))) eqn:Hm; [discriminate|].
    destruct pre as [|x pre]; simpl in *.
    + subst s1. now rewrite Nat.add_0_r.
    + injection E as -> ->. rewrite <- plus_n_Sm.
      now apply (IH (S i) H pre s1).
Qed.

(** [test] succeeds exactly when the pattern matches somewhere. *)
Lemma test_true_iff r s :
  test r s = true <->
  exists pre w post c, s = pre ++ w ++ post /\ matches r (length pre) w post c.
Proof.
  unfold test. split.
  - destruct (search r 0 s) as [res|] eqn:H; [intros _|discriminate].
    apply search_sound in H as (pre & s1 & -> & H & _).
    apply matchAt_some in H as (w & s' & c & -> & M & _).
    now exists pre, w, s', c.
  - intros (pre & w & post & c & -> & M).
    destruct (search r 0 (pre ++ w ++ post)) eqn:H; [reflexivity|].
    exfalso. apply (matchAt_complete M).
    now apply (search_none _ _ H pre).
Qed.

(** *** Building and reading matches of the derived forms *)

Lemma matches_seq r1 r2 i w w1 w2 s' c c1 c2 :
  matches r1 i w1 (w2 ++ s') c1 ->
  matches r2 (i + length w1) w2 s' c2 ->
  w = w1 ++ w2 -> c = c2 ++ c1 ->
  matches (Seq r1 r2) i w s' c.
Proof. intros M1 M2 -> ->. now constructor. Qed.

Lemma matches_lit c i s' : matches (Lit c) i [c] s' [].
Proof. constructor. apply N.eqb_refl. Qed.

Lemma matches_lit_inv c i w s' caps :
  matches (Lit c) i w s' caps -> w = [c] /\ caps = [].
Proof.
  unfold Lit. inversion 1; subst.
  match goal with H : N.eqb _ _ = true |- _ => apply N.eqb_eq in H end.
  now subst.
Qed.

Lemma matches_plus p i w s' caps :
  matches (Plus p) i w s' caps <->
  w <> [] /\ forallb p w = true /\ caps = [].
Proof.
  unfold Plus. split.
  - inversion 1; subst.
    repeat match goal with
           | H : matches (Chr _) _ _ _ _ |- _ => inversion H; subst; clear H
           | H : matches (Star _ _) _ _ _ _ |- _ => inversion H; subst; clear H
           end.
    simpl. repeat split; try discriminate.
    now apply andb_true_intro.
  - intros (Hne & Hw & ->). destruct w as [|c w]; [contradiction|].
    simpl in Hw. apply andb_prop in Hw as [Hc Hw].
    apply matches_seq with (w1 := [c]) (w2 := w) (c1 := []) (c2 := []);
      try reflexivity; now constructor.
Qed.

Lemma sequence_cons r r' rs :
  sequence (r :: r' :: rs) = Seq r (sequence (r' :: rs)).
Proof. reflexivity. Qed.

Lemma matches_lits l : forall i w s' caps,
  matches (lits l) i w s' caps <-> w = l /\ caps = [].
Proof.
  unfold lits. induction l as [|a l IH]; intros i w s' caps.
  - split; [inversion 1; auto|intros [-> ->]; constructor].
  - destruct l as [|b l].
    + split; [apply matches_lit_inv|intros [-> ->]; apply matches_lit].
    + cbn [map] in *. rewrite sequence_cons. split.
      * intros H.
        inversion H as [ | | | |? ? ? w1 w2 ? c1 c2 M1 M2| | | | ]; subst; clear H.
        apply matches_lit_inv in M1 as [-> ->].
        apply IH in M2 as [-> ->]. auto.
      * intros [-> ->].
        apply matches_seq with (w1 := [a]) (w2 := b :: l) (c1 := []) (c2 := []);
          try reflexivity; [apply matches_lit|now apply IH].
Qed.

Lemma matches_seq_inv r1 r2 i w s' c :
  matches (Seq r1 r2) i w s' c ->
  exists w1 w2 c1 c2,
    w = w1 ++ w2 /\ c = c2 ++ c1
    /\ matches r1 i w1 (w2 ++ s') c1 /\ matches r2 (i + length w1) w2 s' c2.
Proof.
  intros H. inversion H as [ | | | |? ? ? w1 w2 ? c1 c2 M1 M2| | | | ]; subst.
  now exists w1, w2, c1, c2.
Qed.

Lemma matches_chr_inv p i w s' c :
  matches (Chr p) i w s' c -> exists x, w = [x] /\ p x = true /\ c = [].
Proof. inversion 1; subst. eauto. Qed.

Lemma matches_bol_inv i w s' c : matches Bol i w s' c -> i = 0 /\ w = [] /\ c = [].
Proof. inversion 1; subst. auto. Qed.

Lemma matches_eol_inv i w s' c : matches Eol i w s' c -> w = [] /\ s' = [] /\ c = [].
Proof. inversion 1; subst. auto. Qed.

Lemma matches_star_inv g p i w s' c :
  matches (Star g p) i w s' c -> forallb p w = true /\ c = [].
Proof. inversion 1; subst. auto. Qed.

Lemma matches_alt_inv r1 r2 i w s' c :
  matches (Alt r1 r2) i w s' c -> matches r1 i w s' c \/ matches r2 i w s' c.
Proof. inversion 1; subst; auto. Qed.

Lemma matches_group_inv r i w s' c :
  matches (Group r) i w s' c -> exists c', c = c' ++ [w] /\ matches r i w s' c'.
Proof. inversion 1; subst. eauto. Qed.

(** Reads every hypothesis about a match of a composite pattern. *)
Ltac read_matches :=
  repeat match goal with
    | H : matches (Seq _ _) _ _ _ _ |- _ =>
        apply matches_seq_inv in H as (? & ? & ? & ? & ? & ? & ? & ?)
    | H : matches (Lit _) _ _ _ _ |- _ => apply matches_lit_inv in H as [? ?]
    | H : matches (Chr _) _ _ _ _ |- _ =>
        apply matches_chr_inv in H as (? & ? & ? & ?)
    | H : matches Bol _ _ _ _ |- _ => apply matches_bol_inv in H as (? & ? & ?)
    | H : matches Eol _ _ _ _ |- _ => apply matches_eol_inv in H as (? & ? & ?)
    | H : matches (Star _ _) _ _ _ _ |- _ => apply matches_star_inv in H as [? ?]
    | H : matches (Plus _) _ _ _ _ |- _ => apply matches_plus in H as (? & ? & ?)
    | H : matches (lits _) _ _ _ _ |- _ => apply matches_lits in H as [? ?]
    | H : matches (Group _) _ _ _ _ |- _ =>
        apply matches_group_inv in H as (? & ? & ?)
    | H : matches (Alt _ _) _ _ _ _ |- _ => apply matches_alt_inv in H as [?|?]
    end.

Lemma length_zero_nil (A : Type) (l : list A) : length l = 0 -> l = [].
Proof. destruct l; simpl; [reflexivity|discriminate]. Qed.

Ltac nil_lengths :=
  repeat match goal with
    | H : length ?l = 0 |- _ => apply length_zero_nil in H; subst l
    | H : 0 = length ?l |- _ => symmetry in H; apply length_zero_nil in H; subst l
    end.

(** Reads the hypotheses, then substitutes what was learnt. *)
Ltac read_all := read_matches; subst; nil_lengths.

(** *** The loop over the matches of a global pattern *)

Lemma search_match r i s caps cur :
  search r i s = Some (caps, cur) ->
  exists pre w c,
    s = pre ++ w ++ rest cur
    /\ matches r (i + length pre) w (rest cur) c
    /\ caps = c
    /\ (forall pre1 pre2, pre = pre1 ++ pre2 -> pre2 <> [] ->
          matchAt r (mkCursor (i + length pre1) (pre2 ++ w ++ rest cur)) = None).
Proof.
  intros H. apply search_sound in H as (pre & s1 & -> & H & Hfirst).
  apply matchAt_some in H as (w & s' & c & -> & M & E). injection E as -> ->.
  exists pre, w, c. simpl. auto.
Qed.

(** Every match the loop reports is a match of the pattern. *)
Lemma execLoop_Forall r (P : list jsstring -> Prop) :
  (forall i w s' c, matches r i w s' c -> P (rev c)) ->
  forall n s i, Forall P (execLoop n r i s).
Proof.
  intros HP. induction n as [|n IH]; intros s i; simpl; [constructor|].
  destruct (search r i s) as [[caps cur]|] eqn:H; [|constructor].
  apply search_match in H as (pre & w & c & _ & M & -> & _).
  constructor; [eapply HP; eassumption|apply IH].
Qed.

(** When no match is empty, [lastIndex] grows at every iteration and the
    bound on the iterations is never reached: any larger bound gives the
    same matches. *)
Lemma execLoop_fuel r :
  Yields.progresses r ->
  forall n n' s i, length s < n -> length s < n' ->
                   execLoop n r i s = execLoop n' r i s.
Proof.
  intros Hr. induction n as [|n IH]; intros [|n'] s i Hn Hn'; try lia. simpl.
  destruct (search r i s) as [[caps cur]|] eqn:H; [|reflexivity].
  f_equal. apply search_match in H as (pre & w & c & E & M & _ & _).
  apply Hr in M. apply (f_equal (@length _)) in E.
  rewrite !length_app in E. destruct w; [contradiction|]. simpl in E.
  apply IH; lia.
Qed.

Lemma progresses_lit_first c r : Yields.progresses (Seq (Lit c) r).
Proof. intros i w s' caps M. read_all. discriminate. Qed.

Lemma progresses_lits_first l r : l <> [] -> Yields.progresses (Seq (lits l) r).
Proof.
  intros Hl i w s' caps M. read_all. destruct l; [contradiction|discriminate].
Qed.

(** *** Character classes *)

Lemma space_not_ident c : is_space c = true -> is_ident c = false.
Proof.
  intros H. apply not_true_iff_false. intros H'.
  unfold is_ident, is_space, is_digit, between in *.
  rewrite ?orb_true_iff, ?andb_true_iff, ?N.leb_le, ?N.eqb_eq in *. lia.
Qed.

Lemma space_not_quote c : is_space c = true -> is_quote c = false.
Proof.
  intros H. apply not_true_iff_false. intros H'.
  unfold is_quote, is_space, squote, dquote, between in *.
  rewrite ?orb_true_iff, ?andb_true_iff, ?N.leb_le, ?N.eqb_eq in *. lia.
Qed.

Lemma newline_not_dot : is_dot 10 = false.
Proof. reflexivity. Qed.

(** *** [trim] and the deletion of quotes *)

Lemma trimStart_spec s :
  exists l, s = l ++ trimStart s /\ forallb is_space l = true.
Proof.
  induction s as [|c t (l & E & Hl)]; simpl.
  - now exists [].
  - destruct (is_space c) eqn:Hc.
    + exists (c :: l). simpl. rewrite Hc, Hl. split; [now f_equal|reflexivity].
    + now exists [].
Qed.

Lemma trimStart_spaces l s :
  forallb is_space l = true -> trimStart (l ++ s) = trimStart s.
Proof.
  induction l as [|c l IH]; simpl; [reflexivity|].
  intros H. apply andb_prop in H as [Hc Hl]. rewrite Hc. auto.
Qed.

Lemma trimStart_id s :
  match s with [] => True | c :: _ => is_space c = false end -> trimStart s = s.
Proof. destruct s as [|c t]; simpl; [reflexivity|]. now intros ->. Qed.

Lemma forallb_rev_true (A : Type) (p : A -> bool) l :
  forallb p l = true -> forallb p (rev l) = true.
Proof.
  rewrite !forallb_forall. intros H x Hx. apply H. now apply in_rev.
Qed.

Lemma trim_spec s :
  exists l r, s = l ++ trim s ++ r
              /\ forallb is_space l = true /\ forallb is_space r = true.
Proof.
  unfold trim, trimEnd.
  destruct (trimStart_spec s) as (l & E & Hl).
  destruct (trimStart_spec (rev (trimStart s))) as (r & E' & Hr).
  exists l, (rev r). repeat split; auto using forallb_rev_true.
  rewrite E at 1. f_equal.
  rewrite <- (rev_involutive (trimStart s)) at 1. rewrite E' at 1.
  now rewrite rev_app_distr.
Qed.

(** A text without white space, wrapped in white space, is what [trim]
    gives back. *)
Lemma trim_wrapped l k r :
  forallb is_space l = true -> forallb is_space r = true ->
  (forall c, In c k -> is_space c = false) ->
  k <> [] ->
  trim (l ++ k ++ r) = k.
Proof.
  intros Hl Hr Hk Hne. unfold trim, trimEnd.
  rewrite trimStart_spaces by assumption.
  rewrite (@trimStart_id (k ++ r)).
  2:{ destruct k as [|c k]; [contradiction|]. simpl. apply Hk. now left. }
  rewrite rev_app_distr, trimStart_spaces by now apply forallb_rev_true.
  rewrite trimStart_id; [apply rev_involutive|].
  destruct (rev k) as [|c k'] eqn:E; [exact I|].
  apply Hk. apply in_rev. rewrite E. now left.
Qed.

Lemma stripQuotes_app a b : stripQuotes (a ++ b) = stripQuotes a ++ stripQuotes b.
Proof. apply filter_app. Qed.

Lemma stripQuotes_spaces l : forallb is_space l = true -> stripQuotes l = l.
Proof.
  unfold stripQuotes. induction l as [|c l IH]; simpl; [reflexivity|].
  intros H. apply andb_prop in H as [Hc Hl].
  rewrite (space_not_quote _ Hc). simpl. now rewrite IH.
Qed.

(** The key the symbol table stores and the key the direct path emits
    are the same text whenever the former is a non-empty text without
    white space. *)
Lemma clean_key_agrees key :
  stripQuotes (trim key) <> [] ->
  (forall c, In c (stripQuotes (trim key)) -> is_space c = false) ->
  trim (stripQuotes key) = stripQuotes (trim key).
Proof.
  intros Hne Hk. destruct (trim_spec key) as (l & r & E & Hl & Hr).
  rewrite E at 1.
  rewrite !stripQuotes_app, (stripQuotes_spaces _ Hl), (stripQuotes_spaces _ Hr).
  now apply trim_wrapped.
Qed.

(** *** Own keys *)

Lemma insert_index_in k x l : In x (insert_index k l) <-> x = k \/ In x l.
Proof.
  induction l as [|h t IH]; simpl.
  - intuition.
  - destruct (N.leb (digits_value k) (digits_value h)); simpl; [intuition|].
    rewrite IH. intuition.
Qed.

Lemma ownKeys_in (V : Type) (o : props V) k :
  In k (ownKeys o) <-> In k (map fst o).
Proof.
  unfold ownKeys. rewrite in_app_iff, filter_In.
  assert (H : forall l, In k (fold_right insert_index [] (filter is_array_index l))
                        <-> In k l /\ is_array_index k = true).
  { induction l as [|h t IH]; simpl; [tauto|].
    destruct (is_array_index h) eqn:Hh; simpl.
    - rewrite insert_index_in, IH. intuition; subst; auto.
    - rewrite IH. intuition; subst; congruence. }
  rewrite H. destruct (is_array_index k); simpl; intuition congruence.
Qed.

Lemma assign_keys (V : Type) k (v : V) o x :
  In x (map fst (assign k v o)) -> x = k \/ In x (map fst o).
Proof.
  induction o as [|[k' v'] o IH]; simpl.
  - intuition.
  - destruct (streq k k'); simpl; intuition.
Qed.

End JsFacts.

(** ** Facts about the Validity Filter *)

Module FilterFacts.
Import Js JsFacts Engine Spec.

Lemma test_begins_with c s :
  test (Seq Bol (Lit c)) s = true <-> begins_with c s.
Proof.
  rewrite test_true_iff. split.
  - intros (pre & w & post & caps & -> & M). read_all. now exists post.
  - intros [t ->]. exists [], [c], t, []. split; [reflexivity|].
    apply matches_seq with (w1 := []) (w2 := [c]) (c1 := []) (c2 := []);
      try reflexivity; [constructor|apply matches_lit].
Qed.

Lemma test_contains_class p s :
  test (Chr p) s = true <-> exists c, In c s /\ p c = true.
Proof.
  rewrite test_true_iff. split.
  - intros (pre & w & post & caps & -> & M). read_all.
    eexists. split; [|eassumption]. apply in_or_app. right. now left.
  - intros (c & Hin & Hp). apply in_split in Hin as (pre & post & ->).
    exists pre, [c], post, []. split; [reflexivity|now constructor].
Qed.

Lemma test_contains_either a b s :
  test (Alt (Lit a) (Lit b)) s = true <-> contains a s \/ contains b s.
Proof.
  unfold contains. rewrite test_true_iff. split.
  - intros (pre & w & post & caps & -> & M). read_all;
      [left|right]; apply in_or_app; right; now left.
  - intros [Hin|Hin]; apply in_split in Hin as (pre & post & ->).
    + exists pre, [a], post, []. split; [reflexivity|].
      apply M_AltL, matches_lit.
    + exists pre, [b], post, []. split; [reflexivity|].
      apply M_AltR, matches_lit.
Qed.

Lemma test_begins_with_digit s :
  test (Seq Bol (Chr is_digit)) s = true <-> begins_with_digit s.
Proof.
  rewrite test_true_iff. split.
  - intros (pre & w & post & caps & -> & M). read_all.
    eexists _, post. split; [reflexivity|assumption].
  - intros (d & t & -> & Hd). exists [], [d], t, []. split; [reflexivity|].
    apply matches_seq with (w1 := []) (w2 := [d]) (c1 := []) (c2 := []);
      try reflexivity; now constructor.
Qed.

Lemma test_ends_with c s :
  test (Seq (Lit c) Eol) s = true <-> ends_with c s.
Proof.
  rewrite test_true_iff. split.
  - intros (pre & w & post & caps & -> & M). read_all.
    exists pre. reflexivity.
  - intros [t ->]. exists t, [c], [], []. split; [reflexivity|].
    apply matches_seq with (w1 := [c]) (w2 := []) (c1 := []) (c2 := []);
      try reflexivity; [apply matches_lit|constructor].
Qed.

Lemma test_number s :
  test (sequence [Bol; Plus is_digit; Eol]) s = true <-> digits s.
Proof.
  rewrite test_true_iff. cbn [sequence]. unfold digits. split.
  - intros (pre & w & post & caps & -> & M). read_all.
    simpl. rewrite !app_nil_r. auto.
  - intros [Hne Hd]. exists [], s, [], []. rewrite app_nil_r. split; [reflexivity|].
    apply matches_seq with (w1 := []) (w2 := s) (c1 := []) (c2 := []);
      try reflexivity; [constructor|].
    apply matches_seq with (w1 := s) (w2 := []) (c1 := []) (c2 := []);
      try reflexivity; [|constructor|now rewrite app_nil_r].
    now apply matches_plus.
Qed.

Lemma test_size_literal s :
  test (sequence [Bol; Plus is_digit; Alt (lits (str "px")) (lits (str "rem")); Eol]) s
  = true <-> size_literal s.
Proof.
  rewrite test_true_iff. cbn [sequence]. unfold size_literal, digits. split.
  - intros (pre & w & post & caps & -> & M). read_all;
      simpl; rewrite !app_nil_r;
      eexists; (split; [split; eassumption|]); auto.
  - intros (ds & [Hne Hd] & Hs).
    assert (exists unit, s = ds ++ unit
              /\ matches (Alt (lits (str "px")) (lits (str "rem")))
                         (0 + length ds) unit ([] ++ []) [])
      as (unit & -> & Hu).
    { destruct Hs as [->| ->]; eexists; (split; [reflexivity|]);
        [apply M_AltL|apply M_AltR]; now apply matches_lits. }
    exists [], (ds ++ unit), [], []. rewrite app_nil_r. split; [reflexivity|].
    apply matches_seq with (w1 := []) (w2 := ds ++ unit) (c1 := []) (c2 := []);
      try reflexivity; [constructor|].
    apply matches_seq with (w1 := ds) (w2 := unit) (c1 := []) (c2 := []);
      try reflexivity; [now apply matches_plus|].
    apply matches_seq with (w1 := unit) (w2 := []) (c1 := []) (c2 := []);
      try reflexivity; [exact Hu|constructor|now rewrite app_nil_r].
Qed.

Lemma test_contains_paren s :
  test (Chr (fun c => N.eqb c (chr "(") || N.eqb c (chr ")"))) s = true
  <-> contains (chr "(") s \/ contains (chr ")") s.
Proof.
  rewrite test_contains_class. unfold contains. split.
  - intros (c & Hin & Hp). apply orb_prop in Hp as [Hp|Hp];
      apply N.eqb_eq in Hp; subst; auto.
  - intros [Hin|Hin]; eexists; (split; [exact Hin|]);
      rewrite N.eqb_refl; auto using orb_true_r.
Qed.

(** The filter rejects exactly the candidates the specification lists. *)
Lemma isValidClassName_false_iff s :
  isValidClassName s = false <-> rejected s.
Proof.
  unfold isValidClassName, invalidPatterns, rejected.
  rewrite negb_false_iff. cbn [existsb]. rewrite !orb_true_iff.
  rewrite !test_begins_with, test_contains_either, test_begins_with_digit,
    test_contains_class, test_contains_paren, test_ends_with,
    test_size_literal, test_number.
  unfold contains_whitespace. intuition discriminate.
Qed.

Lemma isValidClassName_true_iff s :
  isValidClassName s = true <-> ~ rejected s.
Proof.
  rewrite <- isValidClassName_false_iff.
  destruct (isValidClassName s); split; congruence.
Qed.

End FilterFacts.

(** ** Facts about the engine *)

Module EngineFacts.
Import Js JsFacts Engine FilterFacts Yields.

(** *** The accumulator [classNames] *)

Lemma set_add_in x y s : In x (set_add y s) <-> In x s \/ y = x.
Proof.
  unfold set_add. destruct (existsb (streq y) s) eqn:E.
  - apply existsb_exists in E as (z & Hz & Hyz). apply streq_eq in Hyz. subst z.
    split; [auto|]. intros [H| <-]; assumption.
  - rewrite in_app_iff. simpl. tauto.
Qed.

(** [if (isValidClassName(y)) classNames.add(y)]. *)
Lemma guarded_add_in x y classNames :
  In x (if isValidClassName y then set_add y classNames else classNames)
  <-> In x classNames \/ (y = x /\ isValidClassName x = true).
Proof.
  destruct (isValidClassName y) eqn:E.
  - rewrite set_add_in. split; intros [H|H]; auto.
    + subst. auto.
    + destruct H. auto.
  - split; [auto|]. intros [H|[-> H]]; [assumption|congruence].
Qed.

(** A loop whose body only ever adds to the accumulator adds what its
    iterations add. *)
Lemma fold_left_in_iff (B : Type) (F : list jsstring -> B -> list jsstring)
      (Q : B -> jsstring -> Prop) :
  (forall b classNames c, In c (F classNames b) <-> In c classNames \/ Q b c) ->
  forall l classNames c,
    In c (fold_left F l classNames)
    <-> In c classNames \/ exists b, In b l /\ Q b c.
Proof.
  intros HF. induction l as [|b l IH]; intros classNames c; simpl.
  - split; [auto|]. intros [H|(b & [] & _)]. assumption.
  - rewrite IH, HF. split.
    + intros [[H|H]|(b' & Hin & H)]; eauto.
    + intros [H|(b' & [<-|Hin] & H)]; eauto.
Qed.

Lemma addClassesFromVariable_in content classNames c :
  In c (addClassesFromVariable content classNames)
  <-> In c classNames
      \/ exists entry, In entry (map trim (split comma content)) /\ entryYields entry c.
Proof.
  unfold addClassesFromVariable. apply fold_left_in_iff.
  intros entry cls x. unfold entryYields.
  destruct (nth 0 (split colon entry) []) as [|k key].
  - split; [auto|]. intros [H|[H _]]; [assumption|contradiction].
  - rewrite guarded_add_in. split; intros [H|H]; auto.
    + right. destruct H. repeat split; auto. discriminate.
    + right. tauto.
Qed.

Lemma addKeys_in map classNames c :
  In c (addKeys map classNames)
  <-> In c classNames \/ (In c (objectKeys map) /\ isValidClassName c = true).
Proof.
  unfold addKeys.
  rewrite (@fold_left_in_iff _ _ (fun key c => key = c /\ isValidClassName c = true)).
  - split; intros [H|H]; auto.
    + destruct H as (key & Hin & <- & Hv). auto.
    + destruct H. right. eauto.
  - intros key cls x. apply guarded_add_in.
Qed.

(** What an invocation contributes does not depend on what was collected
    before it. *)
Lemma processMixinCall_in mixinName mixinArgs variables classNames c :
  In c (processMixinCall mixinName mixinArgs variables classNames)
  <-> In c classNames \/ In c (processMixinCall mixinName mixinArgs variables []).
Proof.
  assert (Hnil : In c classNames <-> In c classNames \/ In c [])
    by (simpl; tauto).
  unfold processMixinCall.
  set (args := map (fun arg => stripQuotes (trim arg)) (split comma mixinArgs)).
  repeat match goal with
         | |- context [if ?b then _ else _] =>
             match b with
             | isValidClassName _ => fail 1
             | _ => destruct b
             end
         end; try exact Hnil.
  - set (name := nth 0 args []).
    set (scaleKeys := objectKeys (get variables (nth 2 args []))).
    pose (Q := fun (key c : jsstring) =>
                 exists scaleKey, In scaleKey scaleKeys
                   /\ name ++ key ++ str "-" ++ scaleKey = c
                   /\ isValidClassName c = true).
    assert (Hinner : forall key cls x,
               In x (fold_left
                       (fun classNames scaleKey =>
                          if isValidClassName (name ++ key ++ str "-" ++ scaleKey)
                          then set_add (name ++ key ++ str "-" ++ scaleKey) classNames
                          else classNames) scaleKeys cls)
               <-> In x cls \/ Q key x).
    { intros key cls x. unfold Q.
      apply (@fold_left_in_iff _ _
               (fun scaleKey c => name ++ key ++ str "-" ++ scaleKey = c
                                  /\ isValidClassName c = true)).
      intros scaleKey cls' x'. apply guarded_add_in. }
    rewrite !(@fold_left_in_iff _ _ Q) by exact Hinner. simpl. tauto.
  - rewrite !addKeys_in. simpl. tauto.
  - rewrite !addKeys_in. simpl. tauto.
Qed.

Lemma addSelector_in classNames classMatch c :
  In c (addSelector classNames classMatch)
  <-> In c classNames
      \/ (group 1 classMatch = c /\ isValidClassName c = true).
Proof. apply guarded_add_in. Qed.

(** *** The loop over the declarations *)

Lemma fst_fold_declareVariable l : forall st,
  fst (fold_left declareVariable l st) = fold_left declareTable l (fst st).
Proof. induction l as [|x l IH]; intros st; simpl; [reflexivity|apply IH]. Qed.

Lemma snd_fold_declareVariable l : forall st,
  snd (fold_left declareVariable l st)
  = fold_left (fun classNames variableMatch =>
                 addClassesFromVariable (group 2 variableMatch) classNames)
      l (snd st).
Proof. induction l as [|x l IH]; intros st; simpl; [reflexivity|apply IH]. Qed.

Lemma parseFile_in st content c :
  In c (snd (parseFile st content)) <-> In c (snd st) \/ fileYields st content c.
Proof.
  unfold fileYields.
  unfold parseFile at 1. cbn [snd].
  rewrite (@fold_left_in_iff _ _
             (fun classMatch c => group 1 classMatch = c /\ isValidClassName c = true))
    by (intros; apply addSelector_in).
  change (fst (fold_left declareVariable (execAll variableRegex content) st))
    with (fst (parseFile st content)).
  rewrite (@fold_left_in_iff _ _
             (fun mixinMatch c =>
                In c (expandMixin (fst (parseFile st content)) [] mixinMatch)))
    by (intros; apply processMixinCall_in).
  rewrite snd_fold_declareVariable.
  rewrite (@fold_left_in_iff _ _
             (fun variableMatch c =>
                exists entry,
                  In entry (map trim (split comma (group 2 variableMatch)))
                  /\ entryYields entry c))
    by (intros; apply addClassesFromVariable_in).
  split.
  - intros [[[H|(vm & Hin & entry & He & Hy)]|H]|H]; eauto 10.
  - intros [H|[(vm & entry & Hin & He & Hy)|[H|H]]]; eauto 10.
Qed.

(** What a pass contributes: some file, given the state the files before
    it leave. *)
Lemma fold_parseFile_in files : forall st c,
  In c (snd (fold_left parseFile files st))
  <-> In c (snd st)
      \/ exists earlier content later,
           files = earlier ++ content :: later
           /\ fileYields (fold_left parseFile earlier st) content c.
Proof.
  induction files as [|f files IH]; intros st c; simpl.
  - split; [auto|]. intros [H|(e & x & l & E & _)]; [assumption|].
    destruct e; discriminate.
  - rewrite IH, parseFile_in. split.
    + intros [[H|H]|(e & x & l & -> & H)]; auto.
      * right. exists [], f, files. auto.
      * right. exists (f :: e), x, l. auto.
    + intros [H|(e & x & l & E & H)]; auto.
      destruct e as [|y e]; simpl in *; injection E as -> ->; eauto 10.
Qed.

(** Membership in the result of a pass, from the file that yields it. *)
Lemma parseScssFiles_yields earlier content later c :
  fileYields (fold_left parseFile earlier (emptyObject, [])) content c ->
  In c (parseScssFiles (earlier ++ content :: later)).
Proof.
  intros H. unfold parseScssFiles. apply fold_parseFile_in. right.
  now exists earlier, content, later.
Qed.

(** *** The keys of a parsed map *)

Lemma valid_no_space k :
  isValidClassName k = true -> forall c, In c k -> is_space c = false.
Proof.
  intros Hv c Hc. apply not_true_iff_false. intros Hs.
  apply isValidClassName_true_iff in Hv. apply Hv.
  unfold Spec.rejected, Spec.contains_whitespace. eauto 10.
Qed.

Lemma parseVariableContent_keys content k :
  In k (ownKeys (parseVariableContent content)) ->
  exists entry,
    In entry (map trim (split comma content))
    /\ k = stripQuotes (trim (nth 0 (split colon entry) [])).
Proof.
  rewrite ownKeys_in. unfold parseVariableContent.
  generalize (map trim (split comma content)) as entries.
  assert (H : forall entries acc,
             In k (map fst
                     (fold_left
                        (fun result entry =>
                           mapObject_set
                             (stripQuotes (nth 0 (map trim (split colon entry)) []))
                             (nth_error (map trim (split colon entry)) 1) result)
                        entries acc)) ->
             In k (map fst acc)
             \/ exists entry,
                 In entry entries
                 /\ k = stripQuotes (trim (nth 0 (split colon entry) []))).
  { induction entries as [|e entries IH]; intros acc Hk; simpl in *; [auto|].
    apply IH in Hk as [Hk|(entry & Hin & E)]; [|eauto].
    unfold mapObject_set in Hk.
    destruct (streq _ proto_name); [auto|].
    apply assign_keys in Hk as [->|Hk]; [|auto].
    right. exists e. split; [now left|].
    change (@nil char) with (trim []) at 1. now rewrite map_nth. }
  intros entries Hk. apply H in Hk as [[]|Hk]. exact Hk.
Qed.

(** A non-empty key of the parsed map that passes the filter is what the
    direct path derives from the same entry. *)
Lemma table_key_yielded entry k :
  k = stripQuotes (trim (nth 0 (split colon entry) [])) ->
  k <> [] -> isValidClassName k = true ->
  entryYields entry k.
Proof.
  intros E Hne Hv. unfold entryYields. cbv zeta.
  set (key := nth 0 (split colon entry) []) in *.
  repeat split; [| |assumption].
  - intros Hkey. apply Hne. rewrite E, Hkey. reflexivity.
  - rewrite E. apply clean_key_agrees; rewrite <- E; [assumption|].
    now apply valid_no_space.
Qed.

(** *** The three patterns *)

Lemma variableRegex_progresses : progresses variableRegex.
Proof. apply progresses_lit_first. Qed.

Lemma mixinCallRegex_progresses : progresses mixinCallRegex.
Proof. apply progresses_lits_first. discriminate. Qed.

Lemma classRegex_progresses : progresses classRegex.
Proof. apply progresses_lit_first. Qed.

(** The bound of [execAll] is never what ends the loop. *)
Lemma execAll_fuel r n s :
  progresses r -> length s < n -> execLoop n r 0 s = execAll r s.
Proof. intros Hr Hn. apply execLoop_fuel; auto. Qed.

Lemma classRegex_inv i w s' c :
  matches classRegex i w s' c ->
  exists id ws,
    w = selector id ws /\ c = [id]
    /\ id <> [] /\ forallb is_ident id = true /\ forallb is_space ws = true.
Proof.
  unfold classRegex. cbn [sequence]. intros M. read_all.
  eexists _, _. repeat split; eauto.
Qed.

Lemma classRegex_intro i id ws s' :
  id <> [] -> forallb is_ident id = true -> forallb is_space ws = true ->
  matches classRegex i (selector id ws) s' [id].
Proof.
  intros Hne Hid Hws. unfold classRegex, selector. cbn [sequence].
  apply matches_seq with (w1 := [chr "."]) (w2 := id ++ ws ++ [chr "{"])
                         (c1 := []) (c2 := [id]);
    try reflexivity; [apply matches_lit|].
  apply matches_seq with (w1 := id) (w2 := ws ++ [chr "{"])
                         (c1 := [id]) (c2 := []);
    try reflexivity.
  - apply (@M_Group (Plus is_ident) _ id _ []). now apply matches_plus.
  - apply matches_seq with (w1 := ws) (w2 := [chr "{"]) (c1 := []) (c2 := []);
      try reflexivity; [now constructor|apply matches_lit].
Qed.

Lemma mixinCallRegex_inv i w s' c :
  matches mixinCallRegex i w s' c ->
  exists name args,
    c = [args; name]
    /\ name <> [] /\ forallb is_ident name = true /\ forallb is_dot args = true.
Proof.
  unfold mixinCallRegex. cbn [sequence]. intros M. read_all.
  eexists _, _. repeat split; eauto.
Qed.

(** Every invocation the loop reports has its argument text on one line. *)
Lemma mixin_args_one_line content mixinMatch :
  In mixinMatch (execAll mixinCallRegex content) ->
  forallb is_dot (group 2 mixinMatch) = true.
Proof.
  revert mixinMatch. apply Forall_forall. apply execLoop_Forall.
  intros i w s' c M. apply mixinCallRegex_inv in M as (name & args & -> & _ & _ & H).
  exact H.
Qed.

(** *** The scan for literal selectors finds every selector *)

(** A run of characters of a class followed by a character outside it is
    determined by the text. *)
Lemma run_unique (p : char -> bool) : forall a a' x x' t t',
  forallb p a = true -> forallb p a' = true ->
  p x = false -> p x' = false ->
  a ++ x :: t = a' ++ x' :: t' -> a = a' /\ x :: t = x' :: t'.
Proof.
  induction a as [|y a IH]; intros [|y' a'] x x' t t' H H' Hx Hx' E;
    cbn [app forallb] in *.
  - now split.
  - injection E as -> _. apply andb_prop in H' as [H' _]. congruence.
  - injection E as -> _. apply andb_prop in H as [H _]. congruence.
  - injection E as -> E. apply andb_prop in H as [_ H].
    apply andb_prop in H' as [_ H'].
    destruct (IH a' x x' t t' H H' Hx Hx' E) as [-> E'].
    now split.
Qed.

Lemma ident_run_unique id id' x x' t t' :
  forallb is_ident id = true -> forallb is_ident id' = true ->
  is_ident x = false -> is_ident x' = false ->
  id ++ x :: t = id' ++ x' :: t' -> id = id'.
Proof.
  intros H H' Hx Hx' E.
  now apply (@run_unique is_ident id id' x x' t t' H H' Hx Hx' E).
Qed.

Lemma selector_tail_nonident ws post :
  forallb is_space ws = true ->
  exists x t, ws ++ chr "{" :: post = x :: t /\ is_ident x = false.
Proof.
  destruct ws as [|c ws]; simpl; intros H.
  - now exists (chr "{"), post.
  - apply andb_prop in H as [Hc _]. exists c, (ws ++ chr "{" :: post).
    split; [reflexivity|now apply space_not_ident].
Qed.

Lemma selector_unique id ws post id' ws' post' :
  forallb is_ident id = true -> forallb is_space ws = true ->
  forallb is_ident id' = true -> forallb is_space ws' = true ->
  selector id ws ++ post = selector id' ws' ++ post' -> id = id'.
Proof.
  intros Hid Hws Hid' Hws' E. unfold selector in E. cbn [app] in E.
  injection E as E. rewrite <- !app_assoc in E. cbn [app] in E.
  destruct (@selector_tail_nonident ws post Hws) as (x & t & Ex & Hx).
  destruct (@selector_tail_nonident ws' post' Hws') as (x' & t' & Ex' & Hx').
  change (chr "{") with 123%N in Ex, Ex'.
  rewrite Ex, Ex' in E. apply (@ident_run_unique id id' x x' t t'); assumption.
Qed.

(** After its first character a selector holds no dot. *)
Lemma selector_no_dot id ws :
  forallb is_ident id = true -> forallb is_space ws = true ->
  ~ In (chr ".") (id ++ ws ++ [chr "{"]).
Proof.
  intros Hid Hws Hin. rewrite !in_app_iff in Hin.
  rewrite forallb_forall in Hid, Hws.
  destruct Hin as [H|[H|[H|[]]]].
  - apply Hid in H. discriminate.
  - apply Hws in H. discriminate.
  - discriminate.
Qed.

Lemma execLoop_finds_selector : forall n s i pre id ws post,
  length s < n ->
  s = pre ++ selector id ws ++ post ->
  id <> [] -> forallb is_ident id = true -> forallb is_space ws = true ->
  In [id] (execLoop n classRegex i s).
Proof.
  induction n as [|n IH]; intros s i pre id ws post Hn E Hne Hid Hws; [lia|].
  assert (Hhere : forall j, matchAt classRegex
                              (mkCursor j (selector id ws ++ post)) <> None)
    by (intros j; apply (@matchAt_complete _ _ _ _ [id]);
        now apply classRegex_intro).
  cbn [execLoop]. destruct (search classRegex i s) as [[caps cur]|] eqn:Hs.
  2:{ exfalso. eapply Hhere. eapply search_none; eassumption. }
  apply search_match in Hs as (p0 & w & c & E0 & M & -> & Hfirst).
  destruct cur as [j s'']. cbn [pos rest] in *.
  apply classRegex_inv in M as (id' & ws' & -> & -> & Hne' & Hid' & Hws').
  cbn [rev app].
  assert (Hlen : length s'' < n).
  { apply (f_equal (@length _)) in E0. rewrite !length_app in E0.
    unfold selector in E0. cbn [length] in E0. lia. }
  rewrite E in E0. symmetry in E0.
  apply app_eq_app in E0 as (l & [[E1 E2]|[E1 E2]]).
  - (* the match starts at or after the selector *)
    destruct l as [|x l]; cbn [app] in E2.
    + left. f_equal. symmetry.
      apply (@selector_unique id ws post id' ws' s''); assumption.
    + exfalso. apply (Hhere (i + length pre)).
      rewrite E2. now apply (Hfirst pre (x :: l)).
  - (* the match starts at or before the selector *)
    destruct l as [|x l]; cbn [app] in E2.
    + left. f_equal.
      apply (@selector_unique id' ws' s'' id ws post); assumption.
    + right. unfold selector at 1 in E2. cbn [app] in E2. injection E2 as <- E2.
      apply app_eq_app in E2 as (l2 & [[E3 E4]|[E3 E4]]).
      * destruct l2 as [|y l2]; cbn [app] in E4.
        -- apply (IH s'' j [] id ws post); auto.
        -- exfalso. unfold selector in E4. cbn [app] in E4. injection E4 as <- _.
           apply (@selector_no_dot id' ws' Hid' Hws').
           change (chr "{") with 123%N. change (chr ".") with 46%N.
           rewrite E3. apply in_or_app. right. now left.
      * apply (IH s'' j l2 id ws post); auto.
Qed.

Lemma classRegex_finds_selector content pre id ws post :
  content = pre ++ selector id ws ++ post ->
  id <> [] -> forallb is_ident id = true -> forallb is_space ws = true ->
  In [id] (execAll classRegex content).
Proof. intros. eapply execLoop_finds_selector; eauto. Qed.

(** *** Nothing enters the accumulator unfiltered *)

Lemma fold_left_in_inv (B : Type) (F : list jsstring -> B -> list jsstring)
      (P : jsstring -> Prop) :
  (forall b classNames c, In c (F classNames b) -> In c classNames \/ P c) ->
  forall l classNames c,
    In c (fold_left F l classNames) -> In c classNames \/ P c.
Proof.
  intros HF. induction l as [|b l IH]; intros classNames c H; simpl in H.
  - now left.
  - apply IH in H as [H|H]; [|now right]. now apply HF in H.
Qed.

Lemma guarded_add_valid x y classNames :
  In x (if isValidClassName y then set_add y classNames else classNames) ->
  In x classNames \/ isValidClassName x = true.
Proof. rewrite guarded_add_in. intros [H|[_ H]]; auto. Qed.

Lemma processMixinCall_valid mixinName mixinArgs variables c :
  In c (processMixinCall mixinName mixinArgs variables []) ->
  isValidClassName c = true.
Proof.
  unfold processMixinCall.
  set (args := map (fun arg => stripQuotes (trim arg)) (split comma mixinArgs)).
  repeat match goal with
         | |- context [if ?b then _ else _] =>
             match b with
             | isValidClassName _ => fail 1
             | _ => destruct b
             end
         end; try contradiction.
  - intros H.
    apply (@fold_left_in_inv _ _ (fun c => isValidClassName c = true)) in H
      as [[]|H]; [exact H|].
    intros key cls x Hx.
    apply (@fold_left_in_inv _ _ (fun c => isValidClassName c = true)) in Hx;
      [exact Hx|].
    intros scaleKey cls' x'. apply guarded_add_valid.
  - rewrite addKeys_in. intros [[]|[_ H]]. exact H.
  - rewrite addKeys_in. intros [[]|[_ H]]. exact H.
Qed.

Lemma fileYields_valid st content c :
  fileYields st content c -> isValidClassName c = true.
Proof.
  intros [(vm & entry & _ & _ & _ & _ & H)|[(mm & _ & H)|(cm & _ & _ & H)]];
    try exact H.
  now apply processMixinCall_valid in H.
Qed.

Lemma parseScssFiles_valid files c :
  In c (parseScssFiles files) -> isValidClassName c = true.
Proof.
  unfold parseScssFiles. rewrite fold_parseFile_in.
  intros [[]|(earlier & content & later & _ & H)].
  now apply fileYields_valid in H.
Qed.

(** *** The table is the declarations of the files so far *)

Lemma fold_parseFile_table files : forall st,
  fst (fold_left parseFile files st)
  = fold_left declareTable (declarations files) (fst st).
Proof.
  induction files as [|f files IH]; intros st; simpl; [reflexivity|].
  rewrite IH, fold_left_app. f_equal. apply fst_fold_declareVariable.
Qed.

Lemma tableAfter_declarations files :
  tableAfter files = fold_left declareTable (declarations files) emptyObject.
Proof. apply fold_parseFile_table. Qed.

(** *** An invocation that resolves nothing adds nothing *)

Lemma processMixinCall_unknown mixinName mixinArgs variables classNames :
  ~ In mixinName conventionTable ->
  processMixinCall mixinName mixinArgs variables classNames = classNames.
Proof.
  intros H. unfold processMixinCall.
  repeat match goal with
         | |- context [streq mixinName ?n] =>
             let E := fresh "E" in
             destruct (streq mixinName n) eqn:E;
             [apply streq_eq in E; exfalso; apply H; rewrite E;
              unfold conventionTable; simpl; tauto|]
         end.
  reflexivity.
Qed.

(** With the built-in prototype in place, a name that was not declared
    resolves to nothing an invocation could use. *)
Lemma get_undeclared variables name :
  proto variables = None -> lookup name (own variables) = None ->
  objectKeys (get variables name) = [].
Proof.
  intros Hp Hl. unfold get, objectPrototype_get. rewrite Hl, Hp.
  destruct (streq name proto_name); [reflexivity|].
  destruct (existsb (streq name) objectPrototype_members); reflexivity.
Qed.

Lemma fold_left_no_keys (B : Type) (F : list jsstring -> B -> list jsstring) l :
  (forall classNames b, F classNames b = classNames) ->
  forall classNames, fold_left F l classNames = classNames.
Proof.
  intros HF. induction l as [|b l IH]; intros classNames; simpl;
    [reflexivity|]. now rewrite HF.
Qed.

(** As long as no declaration has replaced the prototype of the table, an
    invocation whose map-name argument was never declared adds nothing. *)
Lemma processMixinCall_undeclared mixinName mixinArgs variables classNames :
  proto variables = None ->
  (mixinName = str "ds4-scale-class" ->
   undeclared variables (nth 1 (mixinArguments mixinArgs) [])
   \/ undeclared variables (nth 2 (mixinArguments mixinArgs) [])) ->
  (mixinName = str "ds4-scale-font-class" \/ mixinName = str "style-class" ->
   undeclared variables (nth 1 (mixinArguments mixinArgs) [])) ->
  (mixinName = str "ds4-scale-border-radius-class"
   \/ mixinName = str "ds4-border-radius-class" ->
   undeclared variables (nth 0 (mixinArguments mixinArgs) [])) ->
  processMixinCall mixinName mixinArgs variables classNames = classNames.
Proof.
  intros Hp H3 H2 H1. unfold processMixinCall.
  fold (mixinArguments mixinArgs). set (args := mixinArguments mixinArgs) in *.
  destruct (streq mixinName (str "ds4-scale-class")) eqn:E3.
  { apply streq_eq in E3. specialize (H3 E3).
    destruct (3 <=? length args); [|reflexivity].
    destruct (truthy _ && truthy _); [|reflexivity].
    destruct H3 as [H|H]; rewrite (@get_undeclared _ _ Hp H); [reflexivity|].
    now apply fold_left_no_keys. }
  destruct (streq mixinName (str "ds4-scale-font-class")) eqn:E2a;
    [apply streq_eq in E2a|
     destruct (streq mixinName (str "style-class")) eqn:E2b;
     [apply streq_eq in E2b|]]; cbn [orb].
  1,2: destruct (2 <=? length args); [|reflexivity];
       destruct (truthy _); [|reflexivity];
       unfold addKeys; rewrite (@get_undeclared _ _ Hp (H2 ltac:(auto)));
       reflexivity.
  destruct (streq mixinName (str "ds4-scale-border-radius-class")) eqn:E1a;
    [apply streq_eq in E1a|
     destruct (streq mixinName (str "ds4-border-radius-class")) eqn:E1b;
     [apply streq_eq in E1b|]]; cbn [orb]; [| |reflexivity].
  1,2: destruct (1 <=? length args); [|reflexivity];
       destruct (truthy _); [|reflexivity];
       unfold addKeys; rewrite (@get_undeclared _ _ Hp (H1 ltac:(auto)));
       reflexivity.
Qed.

(** *** An invocation broken over two lines is not matched *)

Lemma mixinCallRegex_text i w s' c :
  matches mixinCallRegex i w s' c ->
  exists ws name args,
    w = includeHead ws name ++ args ++ str ");"
    /\ ws <> [] /\ forallb is_space ws = true
    /\ name <> [] /\ forallb is_ident name = true
    /\ forallb is_dot args = true.
Proof.
  unfold mixinCallRegex. cbn [sequence]. intros M. read_all.
  match goal with
  | Hs : forallb is_space ?a = true, Hi : forallb is_ident ?b = true,
    Hd : forallb is_dot ?d = true |- _ => exists a, b, d
  end.
  unfold includeHead. split; [|repeat split; assumption].
  rewrite <- !app_assoc. reflexivity.
Qed.

Lemma includeHead_unique ws name t ws' name' t' :
  ws <> [] -> forallb is_space ws = true ->
  name <> [] -> forallb is_ident name = true ->
  ws' <> [] -> forallb is_space ws' = true ->
  name' <> [] -> forallb is_ident name' = true ->
  includeHead ws name ++ t = includeHead ws' name' ++ t' -> t = t'.
Proof.
  intros Hws0 Hws Hn0 Hn Hws0' Hws' Hn0' Hn' E.
  unfold includeHead in E. rewrite <- !app_assoc in E.
  apply app_inv_head in E.
  destruct name as [|x name]; [contradiction|].
  destruct name' as [|x' name']; [contradiction|].
  cbn [app forallb] in *.
  pose proof Hn as Hn1. pose proof Hn' as Hn1'.
  apply andb_prop in Hn1 as [Hx _]. apply andb_prop in Hn1' as [Hx' _].
  assert (Hsx : is_space x = false).
  { destruct (is_space x) eqn:Es; [|reflexivity].
    apply space_not_ident in Es. congruence. }
  assert (Hsx' : is_space x' = false).
  { destruct (is_space x') eqn:Es; [|reflexivity].
    apply space_not_ident in Es. congruence. }
  apply (@run_unique is_space _ _ _ _ _ _ Hws Hws' Hsx Hsx') in E as [_ E].
  change (x :: name ++ chr "(" :: t) with ((x :: name) ++ chr "(" :: t) in E.
  change (x' :: name' ++ chr "(" :: t') with ((x' :: name') ++ chr "(" :: t') in E.
  apply (@run_unique is_ident (x :: name) (x' :: name')) in E as [_ E];
    try assumption; try reflexivity.
  now injection E.
Qed.

(** At an invocation whose argument text reaches a newline before the
    closing parenthesis and semicolon, the pattern does not match. *)
Lemma broken_invocation_no_match i ws name a rest0 :
  ws <> [] -> forallb is_space ws = true ->
  name <> [] -> forallb is_ident name = true ->
  unclosed a ->
  matchAt mixinCallRegex
    (mkCursor i (includeHead ws name ++ a ++ Examples.newline :: rest0)) = None.
Proof.
  intros Hws0 Hws Hn0 Hn Ha.
  destruct (matchAt mixinCallRegex _) as [res|] eqn:Hm; [exfalso|reflexivity].
  apply matchAt_some in Hm as (w & s' & c & E & M & _).
  apply mixinCallRegex_text in M
      as (ws' & name' & args & -> & Hws0' & Hws' & Hn0' & Hn' & Hargs).
  rewrite <- app_assoc in E.
  apply includeHead_unique in E; try assumption.
  rewrite <- app_assoc in E.
  apply app_eq_app in E as (l & [[E1 E2]|[E1 E2]]).
  - (* the arguments end inside [a] *)
    destruct l as [|x l]; [discriminate|].
    injection E2 as <- E2.
    destruct l as [|y l]; [discriminate|].
    injection E2 as <- E2.
    now apply (Ha args l).
  - (* the arguments run over the newline *)
    destruct l as [|x l]; [discriminate|].
    injection E2 as <- E2. subst args.
    rewrite forallb_app in Hargs. apply andb_prop in Hargs as [_ Hargs].
    discriminate.
Qed.

End EngineFacts.


(** ** What the example stylesheets evaluate to *)

(** Splits a conjunction into its parts, leaving equations alone. *)
Ltac conjuncts := repeat match goal with |- _ /\ _ => split end.

Module ExampleFacts.
Import Js Engine Examples Yields.

Lemma buttonPrimary_output :
  parseScssFiles [buttonPrimary] = [str "button-primary"].
Proof. vm_compute. reflexivity. Qed.

Lemma spacingMap_output : parseScssFiles [spacingMap] = [str "sm"; str "lg"].
Proof. vm_compute. reflexivity. Qed.

Lemma crossProduct_output : parseScssFiles [crossProduct] = [str "red"; str "blue"].
Proof. vm_compute. reflexivity. Qed.

(** Written without the sigils, the two map names resolve and the
    invocation yields the cross product of the keys. *)
Lemma crossProductBare_output :
  parseScssFiles [crossProductBare]
  = [ str "red"; str "blue"; str "btn-red-1"; str "btn-red-2";
      str "btn-blue-1"; str "btn-blue-2" ].
Proof. vm_compute. reflexivity. Qed.

Lemma invocation_match :
  execAll mixinCallRegex invocationUnit
  = [[str "ds4-scale-class"; quoted (str "btn-") ++ str ", color, scale"]].
Proof. vm_compute. reflexivity. Qed.

Lemma two_units_output :
  parseScssFiles [mapsUnit; invocationUnit] = [str "red"; str "btn-red-1"].
Proof. vm_compute. reflexivity. Qed.

Lemma two_units_reversed_output :
  parseScssFiles [invocationUnit; mapsUnit] = [str "red"].
Proof. vm_compute. reflexivity. Qed.

Lemma brokenInvocation_output :
  parseScssFiles [brokenInvocationUnit] = [str "red"].
Proof. vm_compute. reflexivity. Qed.

Lemma mapsAndInvocation_output :
  parseScssFiles [mapsAndInvocation] = [str "red"; str "btn-red-1"].
Proof. vm_compute. reflexivity. Qed.

Lemma mapsAndInvocation_server_output :
  ServerTs.parseScssFiles [mapsAndInvocation] = Some [str "red"; str "btn-"].
Proof. vm_compute. reflexivity. Qed.

Lemma spacingMapLines_output :
  parseScssFiles [spacingMapLines] = [str "sm"; str "lg"].
Proof. vm_compute. reflexivity. Qed.

End ExampleFacts.

(** ** The claims *)

Import Js Engine Examples Yields.

(** C1. Whatever the files hold, every string of the result of
    [parseScssFiles] passes [isValidClassName]; hence none begins with a
    digit, holds a dollar or percent sign, or holds white space, and
    neither [123] nor [$bad] is ever in the result.  The three places
    that add to [classNames] (keys of a map body, expansion of an
    invocation, literal selectors) are all covered: the result is what
    they add and nothing else. *)
Theorem output_passes_filter (files : list jsstring) :
  Forall (fun c =>
            isValidClassName c = true
            /\ ~ Spec.begins_with_digit c
            /\ ~ Spec.contains (chr "$") c
            /\ ~ Spec.contains (chr "%") c
            /\ ~ Spec.contains_whitespace c)
         (parseScssFiles files)
  /\ ~ In (str "123") (parseScssFiles files)
  /\ ~ In (str "$bad") (parseScssFiles files).
Proof.
  split; [|split].
  - apply Forall_forall. intros c Hc.
    apply EngineFacts.parseScssFiles_valid in Hc. split; [assumption|].
    apply FilterFacts.isValidClassName_true_iff in Hc.
    unfold Spec.rejected in Hc. tauto.
  - intros H. apply EngineFacts.parseScssFiles_valid in H.
    vm_compute in H. discriminate.
  - intros H. apply EngineFacts.parseScssFiles_valid in H.
    vm_compute in H. discriminate.
Qed.

(** C2. [isValidClassName], in both source files, is a function of the
    candidate alone that answers [false] exactly when one of the listed
    conditions holds, and [true] otherwise. *)
Theorem validity_filter_rejects_iff (candidate : jsstring) :
  (isValidClassName candidate = false <-> Spec.rejected candidate)
  /\ (isValidClassName candidate = true <-> ~ Spec.rejected candidate)
  /\ ServerTs.isValidClassName candidate = isValidClassName candidate.
Proof.
  split; [apply FilterFacts.isValidClassName_false_iff|].
  split; [apply FilterFacts.isValidClassName_true_iff|reflexivity].
Qed.

(** C3. On the cross-product example of the specification the result is
    [red] and [blue] only: the arguments [$color] and [$scale] keep
    their sigil while the table is keyed [color] and [scale], so neither
    resolves and none of the four [btn-] names is produced. *)
Theorem cross_product_example_unresolved :
  parseScssFiles [crossProduct] = [str "red"; str "blue"]
  /\ mixinArguments (quoted (str "btn-") ++ str ", $color, $scale")
     = [str "btn-"; str "$color"; str "$scale"]
  /\ map fst (own (tableAfter [crossProduct])) = [str "color"; str "scale"]
  /\ get (tableAfter [crossProduct]) (str "$color") = VUndefined
  /\ ~ In (str "btn-red-1") (parseScssFiles [crossProduct])
  /\ ~ In (str "btn-red-2") (parseScssFiles [crossProduct])
  /\ ~ In (str "btn-blue-1") (parseScssFiles [crossProduct])
  /\ ~ In (str "btn-blue-2") (parseScssFiles [crossProduct]).
Proof.
  rewrite ExampleFacts.crossProduct_output.
  conjuncts; try (vm_compute; reflexivity);
    vm_compute; intuition discriminate.
Qed.

(** C4, as stated, fails: the invocation of the second unit, which
    declares nothing, resolves [color] and [scale] against the maps the
    first unit declared and yields [btn-red-1]; alone it yields nothing. *)
Lemma symbol_table_not_private :
  execAll variableRegex invocationUnit = []
  /\ In [str "ds4-scale-class"; quoted (str "btn-") ++ str ", color, scale"]
        (execAll mixinCallRegex invocationUnit)
  /\ expandMixin (tableAfter [mapsUnit; invocationUnit]) []
       [str "ds4-scale-class"; quoted (str "btn-") ++ str ", color, scale"]
     = [str "btn-red-1"]
  /\ parseScssFiles [mapsUnit; invocationUnit] = [str "red"; str "btn-red-1"]
  /\ parseScssFiles [invocationUnit] = [].
Proof. conjuncts; vm_compute; auto. Qed.

(** C4, amended.  The table [variables] is created once per pass and
    carried from file to file: when the invocations of a file are
    expanded it holds the declarations of that file and of every file
    before it, in order, and whatever an invocation yields against that
    table is in the result of the pass.  With the maps in the first unit
    and the invocation in the second the result holds [btn-red-1]; with
    the two units in the other order it does not. *)
Theorem symbol_table_accumulates
        (earlier : list jsstring) (content : jsstring) (later : list jsstring)
        (mixinMatch : list jsstring) (c : jsstring) :
  In mixinMatch (execAll mixinCallRegex content) ->
  In c (expandMixin (tableAfter (earlier ++ [content])) [] mixinMatch) ->
  tableAfter (earlier ++ [content])
  = fold_left declareTable (declarations (earlier ++ [content])) emptyObject
  /\ In c (parseScssFiles (earlier ++ content :: later))
  /\ parseScssFiles [mapsUnit; invocationUnit] = [str "red"; str "btn-red-1"]
  /\ parseScssFiles [invocationUnit; mapsUnit] = [str "red"].
Proof.
  intros Hm Hc. split; [apply EngineFacts.tableAfter_declarations|].
  split; [|split; [apply ExampleFacts.two_units_output
                  |apply ExampleFacts.two_units_reversed_output]].
  apply EngineFacts.parseScssFiles_yields. right. left.
  exists mixinMatch. split; [assumption|].
  unfold tableAfter in Hc. rewrite fold_left_app in Hc. exact Hc.
Qed.

(** The amended C4 at the two example units. *)
Lemma symbol_table_accumulates_witness :
  tableAfter ([mapsUnit] ++ [invocationUnit])
  = fold_left declareTable (declarations ([mapsUnit] ++ [invocationUnit]))
      emptyObject
  /\ In (str "btn-red-1") (parseScssFiles ([mapsUnit] ++ invocationUnit :: []))
  /\ parseScssFiles [mapsUnit; invocationUnit] = [str "red"; str "btn-red-1"]
  /\ parseScssFiles [invocationUnit; mapsUnit] = [str "red"].
Proof.
  apply (@symbol_table_accumulates [mapsUnit] invocationUnit []
           [str "ds4-scale-class"; quoted (str "btn-") ++ str ", color, scale"]
           (str "btn-red-1")).
  - vm_compute. auto.
  - vm_compute. auto.
Defined.

(** C5, as stated, fails: the map parsed from [(: 4px)] has the empty
    string as its one key, the empty string passes the filter, and the
    result does not hold it. *)
Lemma empty_key_not_emitted :
  In [str "m"; str ": 4px"] (execAll variableRegex emptyKeyMap)
  /\ ownKeys (parseVariableContent (str ": 4px")) = [[]]
  /\ isValidClassName [] = true
  /\ ~ In [] (parseScssFiles [emptyKeyMap]).
Proof. conjuncts; vm_compute; auto. Qed.

(** C5, amended.  Every non-empty key of the map parsed from a
    declaration that passes the filter is in the result, whatever else
    the files hold; for the spacing example the result holds [sm] and
    [lg] and none of [spacing], [4px], [16px]. *)
Theorem map_keys_emitted
        (files : list jsstring) (content : jsstring)
        (variableMatch : list jsstring) (key : jsstring) :
  In content files ->
  In variableMatch (execAll variableRegex content) ->
  In key (ownKeys (parseVariableContent (group 2 variableMatch))) ->
  key <> [] ->
  isValidClassName key = true ->
  In key (parseScssFiles files)
  /\ In (str "sm") (parseScssFiles [spacingMap])
  /\ In (str "lg") (parseScssFiles [spacingMap])
  /\ ~ In (str "spacing") (parseScssFiles [spacingMap])
  /\ ~ In (str "4px") (parseScssFiles [spacingMap])
  /\ ~ In (str "16px") (parseScssFiles [spacingMap]).
Proof.
  intros Hf Hm Hk Hne Hv. split.
  - apply in_split in Hf as (earlier & later & ->).
    apply EngineFacts.parseScssFiles_yields. left.
    apply EngineFacts.parseVariableContent_keys in Hk as (entry & He & E).
    exists variableMatch, entry. repeat split; try assumption.
    + now apply (EngineFacts.table_key_yielded entry E).
    + now apply (EngineFacts.table_key_yielded entry E).
  - rewrite ExampleFacts.spacingMap_output.
    conjuncts; vm_compute; intuition discriminate.
Qed.

(** The amended C5 at the key [sm] of the spacing map. *)
Lemma map_keys_emitted_witness :
  In (str "sm") (parseScssFiles [spacingMap])
  /\ In (str "sm") (parseScssFiles [spacingMap])
  /\ In (str "lg") (parseScssFiles [spacingMap])
  /\ ~ In (str "spacing") (parseScssFiles [spacingMap])
  /\ ~ In (str "4px") (parseScssFiles [spacingMap])
  /\ ~ In (str "16px") (parseScssFiles [spacingMap]).
Proof.
  apply (@map_keys_emitted [spacingMap] spacingMap
           [str "spacing"; str "sm: 4px, lg: 16px"] (str "sm")).
  - now left.
  - vm_compute. auto.
  - vm_compute. auto.
  - discriminate.
  - reflexivity.
Defined.

(** C6. Wherever a file holds a dot, a non-empty run of identifier
    characters, optional white space and an opening brace, the run is in
    the result if it passes the filter; [.button-primary { color: red; }]
    yields [button-primary]. *)
Theorem literal_selectors_extracted
        (files : list jsstring) (content pre id ws post : jsstring) :
  In content files ->
  content = pre ++ chr "." :: id ++ ws ++ chr "{" :: post ->
  id <> [] ->
  forallb is_ident id = true ->
  forallb is_space ws = true ->
  isValidClassName id = true ->
  In id (parseScssFiles files)
  /\ In (str "button-primary") (parseScssFiles [buttonPrimary]).
Proof.
  intros Hf E Hne Hid Hws Hv. split.
  - apply in_split in Hf as (earlier & later & ->).
    apply EngineFacts.parseScssFiles_yields. right. right.
    exists [id]. repeat split; [|assumption].
    apply (@EngineFacts.classRegex_finds_selector content pre id ws post);
      try assumption.
    rewrite E. unfold selector. cbn [app]. now rewrite <- !app_assoc.
  - rewrite ExampleFacts.buttonPrimary_output. now left.
Qed.

(** C6 at the selector of the example. *)
Lemma literal_selectors_extracted_witness :
  In (str "button-primary") (parseScssFiles [buttonPrimary])
  /\ In (str "button-primary") (parseScssFiles [buttonPrimary]).
Proof.
  apply (@literal_selectors_extracted [buttonPrimary] buttonPrimary
           [] (str "button-primary") (str " ") (str " color: red; }")).
  - now left.
  - reflexivity.
  - discriminate.
  - reflexivity.
  - reflexivity.
  - reflexivity.
Defined.

(** C7. A declaration named [__proto__] replaces the prototype of the
    table instead of adding a map to it; an invocation that names [red],
    which no declaration stored as a map, then resolves [red] through the
    prototype to the text [#f00] and yields sixteen names built from the
    indices of that text. *)
Theorem undeclared_name_resolves_through_prototype :
  In [str "ds4-scale-class"; quoted (str "btn-") ++ str ", red, red"]
     (execAll mixinCallRegex protoUnit)
  /\ own (tableAfter [protoUnit]) = []
  /\ undeclared (tableAfter [protoUnit]) (str "red")
  /\ get (tableAfter [protoUnit]) (str "red") = VString (str "#f00")
  /\ length (expandMixin (tableAfter [protoUnit]) []
               [str "ds4-scale-class"; quoted (str "btn-") ++ str ", red, red"])
     = 16
  /\ In (str "btn-0-0") (parseScssFiles [protoUnit])
  /\ In (str "btn-3-3") (parseScssFiles [protoUnit]).
Proof. conjuncts; vm_compute; auto 20. Qed.


(** C9. The filter accepts the empty string, and the declaration whose
    one key is a pair of double quotes puts the empty string in the
    result. *)
Theorem empty_string_reachable :
  isValidClassName [] = true
  /\ quotedEmptyKeyMap = str "$m: (" ++ [dquote; dquote] ++ str ": 4px) !default;"
  /\ In [] (parseScssFiles [quotedEmptyKeyMap]).
Proof. conjuncts; vm_compute; auto. Qed.



(** ** The accumulator only grows *)

Module GrowthFacts.
Import Js JsFacts Engine FilterFacts Yields EngineFacts More.

Lemma grows_refl a : grows a a.
Proof.
  exists []. rewrite app_nil_r. repeat split; [constructor|contradiction].
Qed.

Lemma grows_trans a b c : grows a b -> grows b c -> grows a c.
Proof.
  intros (e1 & -> & N1 & D1) (e2 & -> & N2 & D2).
  exists (e1 ++ e2). rewrite app_assoc. split; [reflexivity|]. split.
  - apply NoDup_app; [assumption|assumption|].
    intros x H1 H2. apply (D2 x H2). apply in_or_app. now right.
  - intros x Hx Ha. apply in_app_or in Hx as [Hx|Hx].
    + now apply (D1 x).
    + apply (D2 x Hx). apply in_or_app. now left.
Qed.

Lemma set_add_grows x s : grows s (set_add x s).
Proof.
  unfold set_add. destruct (existsb (streq x) s) eqn:E; [apply grows_refl|].
  exists [x]. repeat split.
  - constructor; [intros []|constructor].
  - intros y [<-|[]] Hin.
    assert (existsb (streq x) s = true); [|congruence].
    apply existsb_exists. exists x. split; [assumption|apply streq_refl].
Qed.

Lemma guarded_add_grows y s :
  grows s (if isValidClassName y then set_add y s else s).
Proof. destruct (isValidClassName y); [apply set_add_grows|apply grows_refl]. Qed.

Lemma fold_left_grows (B : Type) (F : list jsstring -> B -> list jsstring) :
  (forall a b, grows a (F a b)) -> forall l a, grows a (fold_left F l a).
Proof.
  intros HF. induction l as [|b l IH]; intros a; simpl; [apply grows_refl|].
  eapply grows_trans; [apply HF|apply IH].
Qed.

Lemma addClassesFromVariable_grows content classNames :
  grows classNames (addClassesFromVariable content classNames).
Proof.
  unfold addClassesFromVariable. apply fold_left_grows.
  intros a entry. destruct (nth 0 (split colon entry) []);
    [apply grows_refl|apply guarded_add_grows].
Qed.

Lemma addKeys_grows map classNames : grows classNames (addKeys map classNames).
Proof. apply fold_left_grows. intros a key. apply guarded_add_grows. Qed.

Lemma processMixinCall_grows mixinName mixinArgs variables classNames :
  grows classNames (processMixinCall mixinName mixinArgs variables classNames).
Proof.
  unfold processMixinCall.
  repeat match goal with
         | |- context [if ?b then _ else _] =>
             match b with
             | isValidClassName _ => fail 1
             | _ => destruct b
             end
         end; try apply grows_refl; try apply addKeys_grows.
  apply fold_left_grows. intros a key. apply fold_left_grows.
  intros a' scaleKey. apply guarded_add_grows.
Qed.

Lemma parseFile_grows st content : grows (snd st) (snd (parseFile st content)).
Proof.
  unfold parseFile. cbn [snd].
  eapply grows_trans; [|apply fold_left_grows; intros; apply guarded_add_grows].
  eapply grows_trans;
    [|apply fold_left_grows; intros; apply processMixinCall_grows].
  rewrite snd_fold_declareVariable.
  apply fold_left_grows. intros. apply addClassesFromVariable_grows.
Qed.

Lemma fold_parseFile_grows files : forall st,
  grows (snd st) (snd (fold_left parseFile files st)).
Proof.
  induction files as [|f files IH]; intros st; simpl; [apply grows_refl|].
  eapply grows_trans; [apply parseFile_grows|apply IH].
Qed.

(** What grows without gaining an element has not changed. *)
Lemma grows_stable a b : grows a b -> (forall x, In x b -> In x a) -> b = a.
Proof.
  intros (extra & -> & _ & D) H. destruct extra as [|x extra];
    [apply app_nil_r|].
  exfalso. apply (D x); [now left|]. apply H. apply in_or_app. right. now left.
Qed.

End GrowthFacts.

(** ** More about the Validity Filter *)

Module FilterMore.
Import Js JsFacts Engine FilterFacts Spec More.

Lemma name_start_ident c : is_name_start c = true -> is_ident c = true.
Proof.
  unfold is_name_start, is_ident. intros H.
  apply orb_prop in H as [H|H]; [apply orb_prop in H as [H|H]|]; rewrite H;
    repeat (rewrite ?orb_true_r, ?orb_true_l); reflexivity.
Qed.

Lemma name_start_not_digit c : is_name_start c = true -> is_digit c = false.
Proof.
  intros H. apply not_true_iff_false. intros H'.
  unfold is_name_start, is_digit, between in *.
  rewrite ?orb_true_iff, ?andb_true_iff, ?N.leb_le, ?N.eqb_eq in *. lia.
Qed.

Lemma digits_begin s : digits s -> begins_with_digit s.
Proof.
  intros [Hne Hd]. destruct s as [|d t]; [contradiction|].
  simpl in Hd. apply andb_prop in Hd as [Hd _]. now exists d, t.
Qed.

Lemma size_literal_begins s : size_literal s -> begins_with_digit s.
Proof.
  intros (ds & [Hne Hd] & Hs). destruct ds as [|d ds]; [contradiction|].
  simpl in Hd. apply andb_prop in Hd as [Hd _].
  destruct Hs as [-> | ->]; eexists d, _; (split; [reflexivity|assumption]).
Qed.

(** The conditions that decide: the other three are implied by them. *)
Lemma rejected_iff s :
  rejected s <->
  begins_with (chr "#") s
  \/ (contains (chr "$") s \/ contains (chr "%") s)
  \/ begins_with_digit s
  \/ begins_with (chr "-") s
  \/ contains_whitespace s
  \/ (contains (chr "(") s \/ contains (chr ")") s)
  \/ ends_with (chr ";") s.
Proof.
  unfold rejected. split.
  - intros [[t ->]|[H|[H|[H|[H|[H|[H|[H|[H|H]]]]]]]]]; auto 10.
    + right. left. left. now left.
    + apply size_literal_begins in H. auto 10.
    + apply digits_begin in H. auto 10.
  - intros [H|[H|[H|[H|[H|[H|H]]]]]]; auto 15.
Qed.

Lemma decidingPatterns_false_iff s :
  existsb (fun pattern => test pattern s) decidingPatterns = true <-> rejected s.
Proof.
  rewrite rejected_iff. unfold decidingPatterns. cbn [existsb].
  rewrite !orb_true_iff.
  rewrite !test_begins_with, test_contains_either, test_begins_with_digit,
    test_contains_class, test_contains_paren, test_ends_with.
  unfold contains_whitespace. intuition discriminate.
Qed.

Lemma identifier_not_rejected c t :
  is_name_start c = true -> forallb is_ident t = true -> ~ rejected (c :: t).
Proof.
  intros Hc Ht. rewrite rejected_iff.
  assert (Hall : forall x, In x (c :: t) -> is_ident x = true).
  { intros x [<-|Hx]; [now apply name_start_ident|].
    rewrite forallb_forall in Ht. now apply Ht. }
  intros [[t' E]|[[H|H]|[(d & t' & E & Hd)|[[t' E]|[(x & Hx & Hs)|[[H|H]|[t' E]]]]]]].
  - injection E as -> _. discriminate.
  - apply Hall in H. discriminate.
  - apply Hall in H. discriminate.
  - injection E as -> _. apply name_start_not_digit in Hc. congruence.
  - injection E as -> _. discriminate.
  - apply Hall in Hx. apply space_not_ident in Hs. congruence.
  - apply Hall in H. discriminate.
  - apply Hall in H. discriminate.
  - assert (Hin : In (chr ";") (c :: t))
      by (rewrite E; apply in_or_app; right; now left).
    apply Hall in Hin. discriminate.
Qed.

End FilterMore.

(** ** The map [parseVariableContent] builds *)

Module TableFacts.
Import Js JsFacts Engine Yields EngineFacts More.

Lemma lookup_assign (V : Type) k (v : V) o k' :
  lookup k' (assign k v o) = if streq k' k then Some v else lookup k' o.
Proof.
  induction o as [|[k0 v0] o IH]; simpl; [reflexivity|].
  destruct (streq k k0) eqn:E; simpl.
  - apply streq_eq in E. subst k0. destruct (streq k' k); reflexivity.
  - rewrite IH. destruct (streq k' k0) eqn:E0; [|reflexivity].
    apply streq_eq in E0. subst k0.
    destruct (streq k' k) eqn:E1; [|reflexivity].
    apply streq_eq in E1. subst k'. rewrite streq_refl in E. discriminate.
Qed.

Lemma assign_keys_iff (V : Type) k (v : V) o x :
  In x (map fst (assign k v o)) <-> x = k \/ In x (map fst o).
Proof.
  split; [apply assign_keys|].
  induction o as [|[k0 v0] o IH]; simpl.
  - intros [->|[]]. now left.
  - destruct (streq k k0) eqn:E; simpl.
    + apply streq_eq in E. subst k0. intuition.
    + intuition.
Qed.

Lemma assign_NoDup (V : Type) k (v : V) o :
  NoDup (map fst o) -> NoDup (map fst (assign k v o)).
Proof.
  induction o as [|[k0 v0] o IH]; simpl; intros H.
  - constructor; [intros []|constructor].
  - inversion H as [|? ? Hn Hd]; subst.
    destruct (streq k k0) eqn:E; simpl; [now constructor|].
    constructor; [|auto].
    intros Hin. apply assign_keys in Hin as [->|Hin]; [|contradiction].
    rewrite streq_refl in E. discriminate.
Qed.

Lemma lookup_Some_key (V : Type) k (o : props V) v :
  lookup k o = Some v -> In k (map fst o).
Proof.
  induction o as [|[k0 v0] o IH]; simpl; [discriminate|].
  destruct (streq k k0) eqn:E; [|auto].
  apply streq_eq in E. auto.
Qed.

Lemma lookup_None_key (V : Type) k (o : props V) :
  lookup k o = None -> ~ In k (map fst o).
Proof.
  induction o as [|[k0 v0] o IH]; simpl; [tauto|].
  destruct (streq k k0) eqn:E; [discriminate|].
  intros H [->|Hin]; [|now apply IH].
  rewrite streq_refl in E. discriminate.
Qed.

(** The body of the loop of [parseVariableContent]. *)
Lemma parseVariableContent_fold content :
  parseVariableContent content
  = fold_left (fun result entry =>
                 mapObject_set (entryKey entry) (entryValue entry) result)
      (entriesOf content) [].
Proof. reflexivity. Qed.

Lemma fold_entries_keys entries : forall acc k,
  In k (map fst (fold_left (fun result entry =>
                              mapObject_set (entryKey entry) (entryValue entry) result)
                   entries acc))
  <-> In k (map fst acc)
      \/ (k <> proto_name /\ exists entry, In entry entries /\ entryKey entry = k).
Proof.
  induction entries as [|e entries IH]; intros acc k; simpl.
  - split; [auto|]. intros [H|(_ & e & [] & _)]. assumption.
  - rewrite IH. unfold mapObject_set.
    destruct (streq (entryKey e) proto_name) eqn:E.
    + apply streq_eq in E. split.
      * intros [H|(Hk & e' & Hin & He)]; eauto 6.
      * intros [H|(Hk & e' & [<-|Hin] & He)]; eauto 6. congruence.
    + rewrite assign_keys_iff. split.
      * intros [[->|H]|(Hk & e' & Hin & He)]; eauto 6.
        right. split; [|eauto].
        intros Hp. rewrite Hp, streq_refl in E. discriminate.
      * intros [H|(Hk & e' & [<-|Hin] & He)]; eauto 6.
Qed.

Lemma fold_entries_NoDup entries : forall acc,
  NoDup (map fst acc) ->
  NoDup (map fst (fold_left (fun result entry =>
                               mapObject_set (entryKey entry) (entryValue entry) result)
                    entries acc)).
Proof.
  induction entries as [|e entries IH]; intros acc H; simpl; [assumption|].
  apply IH. unfold mapObject_set.
  destruct (streq (entryKey e) proto_name); [assumption|now apply assign_NoDup].
Qed.

Lemma fold_entries_lookup entries k : forall acc,
  (forall e, In e entries -> entryKey e <> k) ->
  lookup k (fold_left (fun result entry =>
                         mapObject_set (entryKey entry) (entryValue entry) result)
              entries acc)
  = lookup k acc.
Proof.
  induction entries as [|e entries IH]; intros acc H; simpl; [reflexivity|].
  rewrite IH by (intros e' He'; apply H; now right).
  unfold mapObject_set. destruct (streq (entryKey e) proto_name); [reflexivity|].
  rewrite lookup_assign. destruct (streq k (entryKey e)) eqn:E; [|reflexivity].
  apply streq_eq in E. exfalso. apply (H e); [now left|congruence].
Qed.

Lemma insert_index_NoDup k l :
  NoDup l -> ~ In k l -> NoDup (insert_index k l).
Proof.
  induction l as [|h t IH]; simpl; intros Hl Hk.
  - constructor; [intros []|constructor].
  - destruct (N.leb (digits_value k) (digits_value h)); [now constructor|].
    inversion Hl as [|? ? Hh Ht]; subst. constructor.
    + rewrite insert_index_in. intros [->|Hin]; [apply Hk; now left|contradiction].
    + apply IH; [assumption|]. intros Hin. apply Hk. now right.
Qed.

Lemma sorted_indices_in k l :
  In k (fold_right insert_index [] l) <-> In k l.
Proof.
  induction l as [|h t IH]; simpl; [tauto|].
  rewrite insert_index_in, IH. intuition.
Qed.

Lemma ownKeys_NoDup (V : Type) (o : props V) :
  NoDup (map fst o) -> NoDup (ownKeys o).
Proof.
  intros H. unfold ownKeys. apply NoDup_app.
  - assert (Hf : NoDup (filter is_array_index (map fst o)))
      by now apply NoDup_filter.
    induction Hf as [|x l Hx Hl IH]; simpl; [constructor|].
    apply insert_index_NoDup; [assumption|]. now rewrite sorted_indices_in.
  - now apply NoDup_filter.
  - intros x H1 H2. apply sorted_indices_in, filter_In in H1 as [_ H1].
    apply filter_In in H2 as [_ H2]. rewrite H1 in H2. discriminate.
Qed.

End TableFacts.

(** ** What an invocation is expanded against *)

Module MixinFacts.
Import Js JsFacts Engine FilterFacts Yields EngineFacts More TableFacts.

(** *** The indices of a text are not class names *)

Lemma revapp_not_nil d : forall d',
  d <> Decimal.Nil \/ d' <> Decimal.Nil -> Decimal.revapp d d' <> Decimal.Nil.
Proof.
  induction d; intros d' H; simpl;
    try (apply IHd; right; discriminate).
  destruct H as [H|H]; [contradiction|assumption].
Qed.

Lemma succ_not_nil d : Decimal.Little.succ d <> Decimal.Nil.
Proof. destruct d; simpl; discriminate. Qed.

Lemma to_little_uint_not_nil n : forall acc,
  acc <> Decimal.Nil -> Nat.to_little_uint n acc <> Decimal.Nil.
Proof.
  induction n as [|n IH]; intros acc H; simpl; [assumption|].
  apply IH, succ_not_nil.
Qed.

Lemma decimal_begins_with_digit n : Spec.begins_with_digit (decimal n).
Proof.
  unfold decimal, Nat.to_uint, Decimal.rev.
  assert (H : Decimal.revapp (Nat.to_little_uint n Decimal.zero) Decimal.Nil
              <> Decimal.Nil).
  { apply revapp_not_nil. left. apply to_little_uint_not_nil. discriminate. }
  destruct (Decimal.revapp _ _) as [|u|u|u|u|u|u|u|u|u|u]; [contradiction|..];
    eexists _, _; (split; [reflexivity|reflexivity]).
Qed.

Lemma decimal_invalid n : isValidClassName (decimal n) = false.
Proof.
  apply isValidClassName_false_iff. unfold Spec.rejected.
  pose proof (decimal_begins_with_digit n). tauto.
Qed.

(** *** The single-map conventions *)

Lemma processMixinCall_single mixinName :
  In mixinName singleMapConventions ->
  exists n,
    forall mixinArgs variables classNames,
      processMixinCall mixinName mixinArgs variables classNames
      = if S n <=? length (mixinArguments mixinArgs) then
          if truthy (get variables (nth n (mixinArguments mixinArgs) []))
          then addKeys (get variables (nth n (mixinArguments mixinArgs) []))
                 classNames
          else classNames
        else classNames.
Proof.
  intros [<-|[<-|[<-|[<-|[]]]]];
    [exists 1|exists 1|exists 0|exists 0]; intros; reflexivity.
Qed.

(** The keys an invocation can read are keys of a map of the table, or
    indices, or none. *)
Lemma objectPrototype_get_keys variables name c :
  In c (objectKeys (objectPrototype_get variables name)) ->
  exists p, proto variables = Some p /\ In c (ownKeys p).
Proof.
  unfold objectPrototype_get. destruct (streq name proto_name).
  - destruct (proto variables) as [p|]; simpl; [|contradiction].
    intros H. now exists p.
  - destruct (existsb _ _); simpl; contradiction.
Qed.

Lemma get_keys variables name c :
  In c (objectKeys (get variables name)) ->
  (exists o, stored variables o /\ In c (ownKeys o))
  \/ Spec.begins_with_digit c.
Proof.
  unfold get, stored.
  destruct (lookup name (own variables)) as [o|] eqn:El.
  - intros H. left. exists o. split; [left; now exists name|assumption].
  - destruct (proto variables) as [p|] eqn:Ep.
    + destruct (lookup name p) as [[s|]|] eqn:Elp.
      * intros H. right. apply in_map_iff in H as (i & <- & _).
        apply decimal_begins_with_digit.
      * contradiction.
      * intros H. apply objectPrototype_get_keys in H as (p' & Hp & Hc).
        left. exists p'. split; [right; congruence|assumption].
    + intros H. apply objectPrototype_get_keys in H as (p' & Hp & Hc).
      congruence.
Qed.

Lemma single_map_adds_nothing_new mixinName mixinArgs st c :
  In mixinName singleMapConventions ->
  covered st ->
  In c (processMixinCall mixinName mixinArgs (fst st) []) ->
  c <> [] ->
  In c (snd st).
Proof.
  intros Hn Hcov Hc Hne.
  destruct (processMixinCall_single Hn) as (n & E). rewrite E in Hc.
  destruct (S n <=? _); [|contradiction].
  destruct (truthy _); [|contradiction].
  apply addKeys_in in Hc as [[]|[Hk Hv]].
  apply get_keys in Hk as [(o & Ho & Hk)|Hd].
  - now apply (Hcov o Ho c).
  - apply isValidClassName_true_iff in Hv. exfalso. apply Hv.
    unfold Spec.rejected. tauto.
Qed.

(** *** The invariant of the pass *)

Lemma covered_init : covered (emptyObject, []).
Proof.
  intros o [[name H]|H]; simpl in H; discriminate.
Qed.

Lemma covered_more variables classNames classNames' :
  covered (variables, classNames) ->
  (forall x, In x classNames -> In x classNames') ->
  covered (variables, classNames').
Proof. intros H Hsub o Ho k Hk Hne Hv. apply Hsub. now apply (H o Ho k). Qed.

Lemma stored_dictionary_set name o variables o' :
  stored (dictionary_set name o variables) o' -> o' = o \/ stored variables o'.
Proof.
  unfold dictionary_set, stored.
  destruct (streq name proto_name); simpl.
  - intros [H|H]; [auto|]. injection H as <-. now left.
  - intros [[name' H]|H]; [|auto].
    rewrite lookup_assign in H. destruct (streq name' name).
    + injection H as <-. now left.
    + right. left. now exists name'.
Qed.

Lemma covered_declareVariable st variableMatch :
  covered st -> covered (declareVariable st variableMatch).
Proof.
  intros Hcov o Ho k Hk Hne Hv. unfold declareVariable in *. cbn [fst snd] in *.
  apply addClassesFromVariable_in.
  apply stored_dictionary_set in Ho as [->|Ho].
  - right. apply parseVariableContent_keys in Hk as (entry & He & E).
    exists entry. split; [assumption|]. now apply (table_key_yielded entry E).
  - left. now apply (Hcov o Ho k).
Qed.

Lemma covered_declarations l : forall st,
  covered st -> covered (fold_left declareVariable l st).
Proof.
  induction l as [|x l IH]; intros st H; simpl; [assumption|].
  apply IH. now apply covered_declareVariable.
Qed.

Lemma covered_parseFile st content : covered st -> covered (parseFile st content).
Proof.
  intros H.
  apply (covered_declarations (execAll variableRegex content)) in H.
  destruct (GrowthFacts.parseFile_grows st content) as (extra & E & _).
  unfold covered in *.
  intros o Ho k Hk Hne Hv.
  assert (Hin : In k (snd (fold_left declareVariable
                             (execAll variableRegex content) st)))
    by now apply (H o Ho k).
  clear - Hin.
  unfold parseFile. cbn [snd].
  apply fold_left_in_iff with
    (Q := fun classMatch c => group 1 classMatch = c /\ isValidClassName c = true);
    [intros; apply addSelector_in|left].
  apply fold_left_in_iff with
    (Q := fun mixinMatch c =>
            In c (expandMixin
                    (fst (fold_left declareVariable
                            (execAll variableRegex content) st)) [] mixinMatch));
    [intros; apply processMixinCall_in|now left].
Qed.

Lemma covered_pass files : forall st,
  covered st -> covered (fold_left parseFile files st).
Proof.
  induction files as [|f files IH]; intros st H; simpl; [assumption|].
  apply IH. now apply covered_parseFile.
Qed.

End MixinFacts.

(** ** Running the matcher forwards *)

Module ScanFacts.
Import Js JsFacts Engine Yields EngineFacts More.

Lemma m_seq r1 r2 k caps cur : m (Seq r1 r2) k caps cur = m r1 (m r2 k) caps cur.
Proof. reflexivity. Qed.

Lemma m_lit c k caps i t :
  m (Lit c) k caps (mkCursor i (c :: t)) = k caps (mkCursor (S i) t).
Proof. simpl. now rewrite N.eqb_refl. Qed.

Lemma m_lit_miss c k caps i x t :
  x <> c -> m (Lit c) k caps (mkCursor i (x :: t)) = None.
Proof.
  intros H. simpl. destruct (N.eqb c x) eqn:E; [|reflexivity].
  apply N.eqb_eq in E. congruence.
Qed.

Lemma m_lit_end c k caps i : m (Lit c) k caps (mkCursor i []) = None.
Proof. reflexivity. Qed.

Lemma m_lits l : forall k caps i t,
  m (lits l) k caps (mkCursor i (l ++ t)) = k caps (mkCursor (i + length l) t).
Proof.
  unfold lits. induction l as [|a l IH]; intros k caps i t.
  - simpl. now rewrite Nat.add_0_r.
  - destruct l as [|b l].
    + cbn [map sequence app length]. rewrite m_lit. now rewrite Nat.add_1_r.
    + cbn [map] in *. rewrite sequence_cons, m_seq.
      change ((a :: b :: l) ++ t) with (a :: (b :: l) ++ t).
      rewrite m_lit, IH. do 2 f_equal. cbn [length]. lia.
Qed.

Lemma star_greedy_all p k r : forall run i t,
  forallb p run = true -> stops p t ->
  k (mkCursor (i + length run) t) = Some r ->
  star_greedy p k i (run ++ t) = Some r.
Proof.
  induction run as [|c run IH]; intros i t Hrun Ht Hk; simpl in *.
  - rewrite Nat.add_0_r in Hk. destruct t as [|x t]; simpl; [assumption|].
    simpl in Ht. now rewrite Ht.
  - apply andb_prop in Hrun as [Hc Hrun]. rewrite Hc.
    rewrite (IH (S i) t Hrun Ht); [reflexivity|].
    now rewrite <- plus_n_Sm in Hk.
Qed.

Lemma star_lazy_first p k r : forall w i t,
  forallb p w = true ->
  (forall w1 w2, w = w1 ++ w2 -> w2 <> [] ->
                 k (mkCursor (i + length w1) (w2 ++ t)) = None) ->
  k (mkCursor (i + length w) t) = Some r ->
  star_lazy p k i (w ++ t) = Some r.
Proof.
  induction w as [|c w IH]; intros i t Hw Hshort Hk.
  - simpl in *. rewrite Nat.add_0_r in Hk.
    destruct t; simpl; now rewrite Hk.
  - cbn [app star_lazy].
    assert (H0 : k (mkCursor i (c :: w ++ t)) = None).
    { specialize (Hshort [] (c :: w) eq_refl). cbn [length app] in Hshort.
      rewrite Nat.add_0_r in Hshort. apply Hshort. discriminate. }
    rewrite H0. simpl in Hw. apply andb_prop in Hw as [Hc Hw]. rewrite Hc.
    apply IH; [assumption| |].
    + intros w1 w2 E Hne.
      specialize (Hshort (c :: w1) w2). cbn [length] in Hshort.
      rewrite <- plus_n_Sm in Hshort.
      apply Hshort; [simpl; now f_equal|assumption].
    + cbn [length] in Hk. now rewrite <- plus_n_Sm in Hk.
Qed.

Lemma m_star_greedy p k caps r run i t :
  forallb p run = true -> stops p t ->
  k caps (mkCursor (i + length run) t) = Some r ->
  m (Star true p) k caps (mkCursor i (run ++ t)) = Some r.
Proof. intros. cbn [m pos rest]. now apply star_greedy_all. Qed.

Lemma m_plus p k caps r run i t :
  run <> [] -> forallb p run = true -> stops p t ->
  k caps (mkCursor (i + length run) t) = Some r ->
  m (Plus p) k caps (mkCursor i (run ++ t)) = Some r.
Proof.
  intros Hne Hrun Ht Hk. destruct run as [|c run]; [contradiction|].
  simpl in Hrun. apply andb_prop in Hrun as [Hc Hrun].
  unfold Plus. rewrite m_seq. cbn [m pos rest app]. rewrite Hc.
  apply star_greedy_all; try assumption.
  cbn [length] in Hk. now rewrite <- plus_n_Sm in Hk.
Qed.

(** A group around a run of the class, taken whole. *)
Lemma m_group_plus p k caps r run i t :
  run <> [] -> forallb p run = true -> stops p t ->
  k (run :: caps) (mkCursor (i + length run) t) = Some r ->
  m (Group (Plus p)) k caps (mkCursor i (run ++ t)) = Some r.
Proof.
  intros Hne Hrun Ht Hk. cbn [m]. apply m_plus; try assumption.
  cbn [pos rest]. rewrite Nat.sub_diag. cbn [firstn app].
  rewrite firstn_app_exact by lia. exact Hk.
Qed.

(** A group around a lazy repetition: the shortest text after which the
    rest of the pattern matches. *)
Lemma m_group_lazy p k caps r w i t :
  forallb p w = true ->
  (forall w1 w2 caps', w = w1 ++ w2 -> w2 <> [] ->
                       k caps' (mkCursor (i + length w1) (w2 ++ t)) = None) ->
  k (w :: caps) (mkCursor (i + length w) t) = Some r ->
  m (Group (Star false p)) k caps (mkCursor i (w ++ t)) = Some r.
Proof.
  intros Hw Hshort Hk. cbn [m pos rest].
  apply star_lazy_first; try assumption.
  - intros w1 w2 E Hne. cbn [pos]. apply Hshort; assumption.
  - cbn [pos]. rewrite Nat.sub_diag. cbn [firstn app].
    rewrite firstn_app_exact by lia. exact Hk.
Qed.

(** The search skips a text at no position of which the pattern matches. *)
Lemma search_skip r s : forall pre i,
  (forall pre1 x pre2, pre = pre1 ++ x :: pre2 ->
     matchAt r (mkCursor (i + length pre1) (x :: pre2 ++ s)) = None) ->
  search r i (pre ++ s) = search r (i + length pre) s.
Proof.
  induction pre as [|c pre IH]; intros i H.
  - simpl. now rewrite Nat.add_0_r.
  - cbn [app search].
    pose proof (H [] c pre eq_refl) as H0. simpl in H0.
    rewrite Nat.add_0_r in H0. rewrite H0.
    rewrite IH; [f_equal; cbn [length]; lia|].
    intros pre1 x pre2 E. specialize (H (c :: pre1) x pre2).
    cbn [length] in H. rewrite <- plus_n_Sm in H. apply H. simpl. now f_equal.
Qed.

Lemma search_hit r i s res : matchAt r (mkCursor i s) = Some res -> search r i s = Some res.
Proof. intros H. destruct s; simpl; now rewrite H. Qed.

(** No match anywhere in a text at whose characters the pattern cannot
    start. *)
Lemma search_nowhere r : forall s i,
  (forall j, matchAt r (mkCursor j []) = None) ->
  (forall j x t, In x s -> matchAt r (mkCursor j (x :: t)) = None) ->
  search r i s = None.
Proof.
  induction s as [|c s IH]; intros i Hend Hno; simpl.
  - now rewrite Hend.
  - rewrite (Hno i c s) by now left. apply IH; auto.
    intros j x t Hx. apply Hno. now right.
Qed.

End ScanFacts.

(** ** Declarations and invocations as they are written *)

Module PatternFacts.
Import Js JsFacts Engine Yields EngineFacts More ScanFacts.

Lemma forallb_any w : forallb is_any w = true.
Proof.
  induction w as [|c w IH]; simpl; [reflexivity|]. rewrite IH.
  unfold is_any. now destruct (is_space c).
Qed.

Lemma ident_not_space c : is_ident c = true -> is_space c = false.
Proof.
  intros H. destruct (is_space c) eqn:E; [|reflexivity].
  apply space_not_ident in E. congruence.
Qed.

Lemma declarationText_app name ws body ws' post :
  declarationText name ws body ws' ++ post
  = chr "$" :: name ++ chr ":" :: ws ++ chr "(" :: body ++ chr ")" :: ws'
    ++ str "!default;" ++ post.
Proof.
  unfold declarationText.
  repeat (rewrite <- app_comm_cons || rewrite <- app_assoc). reflexivity.
Qed.

Lemma invocationText_app ws name args post :
  invocationText ws name args ++ post
  = str "@include" ++ ws ++ name ++ chr "(" :: args ++ chr ")" :: chr ";" :: post.
Proof.
  unfold invocationText.
  repeat (rewrite <- app_comm_cons || rewrite <- app_assoc). reflexivity.
Qed.

(** The pattern of the declarations matches a well-formed declaration
    whole, whatever follows. *)
Lemma variableRegex_at i name ws body ws' post :
  name <> [] -> forallb is_ident name = true ->
  forallb is_space ws = true -> forallb is_space ws' = true ->
  ~ In (chr ")") body ->
  exists j,
    matchAt variableRegex
      (mkCursor i (declarationText name ws body ws' ++ post))
    = Some ([body; name], mkCursor j post).
Proof.
  intros Hn0 Hn Hws Hws' Hbody. eexists.
  rewrite declarationText_app.
  unfold matchAt, variableRegex. cbn [sequence].
  rewrite m_seq, m_lit, m_seq.
  apply m_group_plus; [assumption|assumption|reflexivity|].
  rewrite m_seq, m_lit, m_seq.
  apply m_star_greedy; [assumption|reflexivity|].
  rewrite m_seq, m_lit, m_seq.
  apply m_group_lazy; [apply forallb_any| |].
  - intros w1 [|x w2] caps' E Hne; [contradiction|].
    rewrite m_seq. apply m_lit_miss. intros ->. apply Hbody.
    rewrite E. apply in_or_app. right. now left.
  - rewrite m_seq, m_lit, m_seq.
    apply m_star_greedy; [assumption|reflexivity|].
    rewrite m_lits. reflexivity.
Qed.

(** The pattern of the invocations matches a well-formed invocation
    whole, whatever follows. *)
Lemma mixinCallRegex_at i ws name args post :
  ws <> [] -> forallb is_space ws = true ->
  name <> [] -> forallb is_ident name = true ->
  forallb is_dot args = true -> unclosed args ->
  exists j,
    matchAt mixinCallRegex (mkCursor i (invocationText ws name args ++ post))
    = Some ([args; name], mkCursor j post).
Proof.
  intros Hws0 Hws Hn0 Hn Hargs Hun. eexists.
  rewrite invocationText_app.
  unfold matchAt, mixinCallRegex. cbn [sequence].
  rewrite m_seq, m_lits, m_seq.
  apply m_plus; [assumption|assumption| |].
  { destruct name as [|x name]; [contradiction|]. cbn [app stops].
    simpl in Hn. apply andb_prop in Hn as [Hx _]. now apply ident_not_space. }
  rewrite m_seq.
  apply m_group_plus; [assumption|assumption|reflexivity|].
  rewrite m_seq, m_lit, m_seq.
  apply m_group_lazy; [assumption| |].
  - intros w1 [|x w2] caps' E Hne; [contradiction|].
    rewrite m_seq. cbn [app].
    destruct (N.eq_dec x (chr ")")) as [->|Hx]; [|now apply m_lit_miss].
    rewrite m_lit. destruct w2 as [|y w2]; cbn [app].
    + apply m_lit_miss. discriminate.
    + apply m_lit_miss. intros ->. apply (Hun w1 w2). exact E.
  - rewrite m_seq, m_lit, m_lit. reflexivity.
Qed.

Lemma variableRegex_start j x t :
  x <> chr "$" -> matchAt variableRegex (mkCursor j (x :: t)) = None.
Proof.
  intros H. unfold matchAt, variableRegex. cbn [sequence].
  rewrite m_seq. now apply m_lit_miss.
Qed.

Lemma mixinCallRegex_start j x t :
  x <> chr "@" -> matchAt mixinCallRegex (mkCursor j (x :: t)) = None.
Proof.
  intros H. unfold matchAt, mixinCallRegex. cbn [sequence].
  rewrite m_seq. unfold lits. cbn [str list_ascii_of_string map sequence].
  rewrite m_seq. now apply m_lit_miss.
Qed.

Lemma declarationText_length name ws body ws' :
  0 < length (declarationText name ws body ws').
Proof. unfold declarationText. cbn [length]. lia. Qed.

Lemma invocationText_length ws name args :
  0 < length (invocationText ws name args).
Proof. unfold invocationText. rewrite length_app. cbn. lia. Qed.

(** The loop over the declarations reads back what was written. *)
Lemma execLoop_declarations : forall ds fuel i gap0,
  Forall wellFormedDeclaration ds -> ~ In (chr "$") gap0 ->
  length ds < fuel ->
  execLoop fuel variableRegex i (declarationsText gap0 ds)
  = map (fun d => [d_name d; d_body d]) ds.
Proof.
  induction ds as [|d ds IH]; intros fuel i gap0 Hwf Hgap Hfuel;
    (destruct fuel as [|fuel]; [simpl in Hfuel; lia|]).
  - unfold declarationsText. cbn [map concat execLoop]. rewrite app_nil_r.
    rewrite search_nowhere; [reflexivity|reflexivity|].
    intros j x t Hx. apply variableRegex_start. intros ->. contradiction.
  - inversion Hwf as [|? ? (Hn0 & Hn & Hws & Hws' & Hbody & Hg) Hwf']; subst.
    unfold declarationsText. cbn [map concat execLoop].
    rewrite <- app_assoc.
    fold (declarationsText (d_gap d) ds).
    rewrite search_skip.
    2:{ intros pre1 x pre2 E. apply variableRegex_start. intros ->.
        apply Hgap. rewrite E. apply in_or_app. right. now left. }
    destruct (@variableRegex_at (i + length gap0) _ _ _ _
                (declarationsText (d_gap d) ds) Hn0 Hn Hws Hws' Hbody)
      as (j & Hj).
    rewrite (@search_hit _ _ _ _ Hj). cbn [rev app pos rest].
    f_equal. apply IH; try assumption. simpl in Hfuel. lia.
Qed.

(** The loop over the invocations reads back what was written. *)
Lemma execLoop_invocations : forall vs fuel i gap0,
  Forall wellFormedInvocation vs -> ~ In (chr "@") gap0 ->
  length vs < fuel ->
  execLoop fuel mixinCallRegex i (invocationsText gap0 vs)
  = map (fun v => [i_name v; i_args v]) vs.
Proof.
  induction vs as [|v vs IH]; intros fuel i gap0 Hwf Hgap Hfuel;
    (destruct fuel as [|fuel]; [simpl in Hfuel; lia|]).
  - unfold invocationsText. cbn [map concat execLoop]. rewrite app_nil_r.
    rewrite search_nowhere; [reflexivity|reflexivity|].
    intros j x t Hx. apply mixinCallRegex_start. intros ->. contradiction.
  - inversion Hwf
      as [|? ? (Hws0 & Hws & Hn0 & Hn & Hargs & Hun & Hg) Hwf']; subst.
    unfold invocationsText. cbn [map concat execLoop].
    rewrite <- app_assoc.
    fold (invocationsText (i_gap v) vs).
    rewrite search_skip.
    2:{ intros pre1 x pre2 E. apply mixinCallRegex_start. intros ->.
        apply Hgap. rewrite E. apply in_or_app. right. now left. }
    destruct (@mixinCallRegex_at (i + length gap0) _ _ _
                (invocationsText (i_gap v) vs) Hws0 Hws Hn0 Hn Hargs Hun)
      as (j & Hj).
    rewrite (@search_hit _ _ _ _ Hj). cbn [rev app pos rest].
    f_equal. apply IH; try assumption. simpl in Hfuel. lia.
Qed.

Lemma declarationsText_length ds : forall gap0,
  length ds <= length (declarationsText gap0 ds).
Proof.
  unfold declarationsText. induction ds as [|d ds IH]; intros gap0;
    cbn [map concat length]; [lia|].
  specialize (IH []). cbn [app] in IH.
  pose proof (declarationText_length (d_name d) (d_ws d) (d_body d) (d_ws' d)).
  rewrite !length_app. lia.
Qed.

Lemma invocationsText_length vs : forall gap0,
  length vs <= length (invocationsText gap0 vs).
Proof.
  unfold invocationsText. induction vs as [|v vs IH]; intros gap0;
    cbn [map concat length]; [lia|].
  specialize (IH []). cbn [app] in IH.
  pose proof (invocationText_length (i_ws v) (i_name v) (i_args v)).
  rewrite !length_app. lia.
Qed.

(** *** What every declaration looks like *)

Lemma variableRegex_shape i w s' c :
  matches variableRegex i w s' c ->
  exists name body x,
    c = [body; name] /\ name <> [] /\ forallb is_ident name = true
    /\ w = x ++ str "!default;".
Proof.
  unfold variableRegex. cbn [sequence]. intros M. read_all.
  match goal with
  | Hi : forallb is_ident ?n = true, Ha : forallb is_any ?b = true |- _ =>
      exists n, b
  end.
  eexists. split; [reflexivity|]. split; [assumption|]. split; [assumption|].
  repeat (rewrite app_assoc). reflexivity.
Qed.

Lemma holds_test needle text :
  holds needle text <-> test (lits needle) text = true.
Proof.
  rewrite test_true_iff. unfold holds. split.
  - intros (a & b & ->). exists a, needle, b, []. split; [reflexivity|].
    now apply matches_lits.
  - intros (pre & w & post & c & -> & M). apply matches_lits in M as [-> _].
    now exists pre, post.
Qed.

Lemma execAll_without_marker content :
  ~ holds (str "!default;") content -> execAll variableRegex content = [].
Proof.
  intros H. unfold execAll. cbn [execLoop].
  destruct (search variableRegex 0 content) as [[caps cur]|] eqn:Hs;
    [exfalso|reflexivity].
  apply search_match in Hs as (pre & w & c & E & M & _ & _).
  apply variableRegex_shape in M as (name & body & x & _ & _ & _ & ->).
  apply H. exists (pre ++ x), (rest cur). rewrite E.
  now rewrite <- !app_assoc.
Qed.

End PatternFacts.

(** ** The names of the table *)

Module NameFacts.
Import Js JsFacts Engine Yields EngineFacts More TableFacts PatternFacts.

Lemma declaration_names content variableMatch :
  In variableMatch (execAll variableRegex content) ->
  group 1 variableMatch <> []
  /\ forallb is_ident (group 1 variableMatch) = true.
Proof.
  revert variableMatch. apply Forall_forall. apply execLoop_Forall.
  intros i w s' c M.
  apply variableRegex_shape in M as (name & body & x & -> & Hn0 & Hn & _).
  now split.
Qed.

Lemma declarations_names files variableMatch :
  In variableMatch (declarations files) ->
  group 1 variableMatch <> []
  /\ forallb is_ident (group 1 variableMatch) = true.
Proof.
  unfold declarations. rewrite in_flat_map.
  intros (content & _ & H). now apply (declaration_names content).
Qed.

Lemma fold_declareTable_own ds : forall variables name,
  In name (map fst (own (fold_left declareTable ds variables))) ->
  In name (map fst (own variables))
  \/ exists variableMatch, In variableMatch ds /\ group 1 variableMatch = name.
Proof.
  induction ds as [|d ds IH]; intros variables name H; simpl in H; [now left|].
  apply IH in H as [H|(vm & Hin & E)].
  - unfold declareTable, dictionary_set in H.
    destruct (streq (group 1 d) proto_name); simpl in H; [now left|].
    apply assign_keys in H as [->|H]; [|now left].
    right. exists d. split; [now left|reflexivity].
  - right. exists vm. split; [now right|assumption].
Qed.

Lemma fold_declareTable_proto ds : forall variables,
  (forall variableMatch, In variableMatch ds ->
                         group 1 variableMatch <> proto_name) ->
  proto (fold_left declareTable ds variables) = proto variables.
Proof.
  induction ds as [|d ds IH]; intros variables H; simpl; [reflexivity|].
  rewrite IH by (intros vm Hvm; apply H; now right).
  unfold declareTable, dictionary_set.
  destruct (streq (group 1 d) proto_name) eqn:E; [|reflexivity].
  apply streq_eq in E. exfalso. apply (H d); [now left|assumption].
Qed.

(** Every name under which the table stores a map is a non-empty run of
    identifier characters. *)
Lemma table_names files name o :
  lookup name (own (tableAfter files)) = Some o ->
  name <> [] /\ forallb is_ident name = true.
Proof.
  intros H. apply lookup_Some_key in H.
  rewrite tableAfter_declarations in H.
  apply fold_declareTable_own in H as [H|(vm & Hin & <-)];
    [simpl in H; contradiction|].
  now apply (declarations_names files).
Qed.

Lemma sigil_undeclared files name :
  In (chr "$") name -> undeclared (tableAfter files) name.
Proof.
  intros H. unfold undeclared.
  destruct (lookup name (own (tableAfter files))) as [o|] eqn:E; [|reflexivity].
  apply table_names in E as [_ E]. rewrite forallb_forall in E.
  apply E in H. discriminate.
Qed.

Lemma proto_untouched files :
  (forall variableMatch, In variableMatch (declarations files) ->
                         group 1 variableMatch <> proto_name) ->
  proto (tableAfter files) = None.
Proof.
  intros H. rewrite tableAfter_declarations.
  now rewrite fold_declareTable_proto.
Qed.

End NameFacts.

(** ** Reading a file a second time *)

Module RescanFacts.
Import Js JsFacts Engine Yields EngineFacts More TableFacts GrowthFacts.

Lemma assign_keys_same (V : Type) k (v : V) o :
  In k (map fst o) -> map fst (assign k v o) = map fst o.
Proof.
  induction o as [|[k0 v0] o IH]; simpl; [contradiction|].
  destruct (streq k k0) eqn:E; simpl; [reflexivity|].
  intros [->|H]; [rewrite streq_refl in E; discriminate|].
  now rewrite IH.
Qed.

(** Two objects with the same keys in the same order and the same value
    under every key are the same object. *)
Lemma props_ext (V : Type) : forall o1 o2 : props V,
  NoDup (map fst o1) -> map fst o1 = map fst o2 ->
  (forall k, lookup k o1 = lookup k o2) -> o1 = o2.
Proof.
  induction o1 as [|[k1 v1] o1 IH]; intros [|[k2 v2] o2] Hnd Hk Hl;
    simpl in *; try discriminate; [reflexivity|].
  injection Hk as <- Hk. inversion Hnd as [|? ? Hn Hnd']; subst.
  pose proof (Hl k1) as H1. rewrite streq_refl in H1. injection H1 as <-.
  f_equal. apply IH; try assumption.
  intros k. specialize (Hl k). destruct (streq k k1) eqn:E; [|assumption].
  apply streq_eq in E. subst k.
  destruct (lookup k1 o1) eqn:E1;
    [apply lookup_Some_key in E1; contradiction|].
  destruct (lookup k1 o2) eqn:E2; [|reflexivity].
  apply lookup_Some_key in E2. rewrite <- Hk in E2. contradiction.
Qed.

Lemma declareTable_own variables d :
  own (declareTable variables d)
  = if streq (group 1 d) proto_name then own variables
    else assign (group 1 d) (parseVariableContent (group 2 d)) (own variables).
Proof.
  unfold declareTable, dictionary_set.
  now destruct (streq (group 1 d) proto_name).
Qed.

Lemma declareTable_proto variables d :
  proto (declareTable variables d)
  = if streq (group 1 d) proto_name
    then Some (parseVariableContent (group 2 d)) else proto variables.
Proof.
  unfold declareTable, dictionary_set.
  now destruct (streq (group 1 d) proto_name).
Qed.

Lemma fold_declareTable_NoDup ds : forall variables,
  NoDup (map fst (own variables)) ->
  NoDup (map fst (own (fold_left declareTable ds variables))).
Proof.
  induction ds as [|d ds IH]; intros variables H; simpl; [assumption|].
  apply IH. rewrite declareTable_own.
  destruct (streq _ _); [assumption|now apply assign_NoDup].
Qed.

Lemma fold_declareTable_keys_grow ds : forall variables k,
  In k (map fst (own variables)) ->
  In k (map fst (own (fold_left declareTable ds variables))).
Proof.
  induction ds as [|d ds IH]; intros variables k H; simpl; [assumption|].
  apply IH. rewrite declareTable_own.
  destruct (streq _ _); [assumption|]. apply assign_keys_iff. now right.
Qed.

(** Declaring over a table that already has the names keeps its keys. *)
Lemma fold_declareTable_keys_same ds : forall variables,
  (forall d, In d ds -> streq (group 1 d) proto_name = false ->
             In (group 1 d) (map fst (own variables))) ->
  map fst (own (fold_left declareTable ds variables)) = map fst (own variables).
Proof.
  induction ds as [|d ds IH]; intros variables H; simpl; [reflexivity|].
  assert (E : map fst (own (declareTable variables d)) = map fst (own variables)).
  { rewrite declareTable_own. destruct (streq _ _) eqn:Ep; [reflexivity|].
    apply assign_keys_same. apply H; [now left|assumption]. }
  rewrite IH; [exact E|].
  intros d' Hd' Hp. rewrite E. apply H; [now right|assumption].
Qed.

Lemma fold_declareTable_declared ds : forall variables d,
  In d ds -> streq (group 1 d) proto_name = false ->
  In (group 1 d) (map fst (own (fold_left declareTable ds variables))).
Proof.
  induction ds as [|d0 ds IH]; intros variables d Hd Hp; [contradiction|].
  destruct Hd as [<-|Hin]; simpl.
  - apply fold_declareTable_keys_grow. rewrite declareTable_own, Hp.
    apply assign_keys_iff. now left.
  - now apply IH.
Qed.

Lemma fold_declareTable_lookup_kept ds k : forall variables,
  existsb (assigns k) ds = false ->
  lookup k (own (fold_left declareTable ds variables)) = lookup k (own variables).
Proof.
  induction ds as [|d ds IH]; intros variables H; simpl in *; [reflexivity|].
  apply orb_false_iff in H as [Hd H]. rewrite IH by assumption.
  rewrite declareTable_own. unfold assigns in Hd.
  destruct (streq (group 1 d) proto_name); [reflexivity|].
  simpl in Hd. now rewrite lookup_assign, Hd.
Qed.

Lemma fold_declareTable_lookup_set ds k : forall variables variables',
  existsb (assigns k) ds = true ->
  lookup k (own (fold_left declareTable ds variables))
  = lookup k (own (fold_left declareTable ds variables')).
Proof.
  induction ds as [|d ds IH]; intros variables variables' H; simpl in *;
    [discriminate|].
  destruct (existsb (assigns k) ds) eqn:E; [now apply IH|].
  rewrite !fold_declareTable_lookup_kept by assumption.
  rewrite orb_false_r in H. unfold assigns in H.
  rewrite !declareTable_own.
  destruct (streq (group 1 d) proto_name); [discriminate|]. simpl in H.
  now rewrite !lookup_assign, H.
Qed.

Lemma fold_declareTable_proto_kept ds : forall variables,
  existsb (fun d => streq (group 1 d) proto_name) ds = false ->
  proto (fold_left declareTable ds variables) = proto variables.
Proof.
  induction ds as [|d ds IH]; intros variables H; simpl in *; [reflexivity|].
  apply orb_false_iff in H as [Hd H]. rewrite IH by assumption.
  now rewrite declareTable_proto, Hd.
Qed.

Lemma fold_declareTable_proto_set ds : forall variables variables',
  existsb (fun d => streq (group 1 d) proto_name) ds = true ->
  proto (fold_left declareTable ds variables)
  = proto (fold_left declareTable ds variables').
Proof.
  induction ds as [|d ds IH]; intros variables variables' H; simpl in *;
    [discriminate|].
  destruct (existsb (fun d => streq (group 1 d) proto_name) ds) eqn:E;
    [now apply IH|].
  rewrite !fold_declareTable_proto_kept by assumption.
  rewrite orb_false_r in H. now rewrite !declareTable_proto, H.
Qed.

Lemma dictionary_ext (d1 d2 : dictionary) :
  own d1 = own d2 -> proto d1 = proto d2 -> d1 = d2.
Proof. destruct d1, d2; simpl; intros -> ->; reflexivity. Qed.

(** Declaring the same declarations a second time changes nothing. *)
Lemma fold_declareTable_twice ds variables :
  NoDup (map fst (own variables)) ->
  fold_left declareTable ds (fold_left declareTable ds variables)
  = fold_left declareTable ds variables.
Proof.
  intros Hnd. apply dictionary_ext.
  - apply props_ext.
    + now apply fold_declareTable_NoDup, fold_declareTable_NoDup.
    + apply fold_declareTable_keys_same.
      intros d Hd Hp. now apply fold_declareTable_declared.
    + intros k. destruct (existsb (assigns k) ds) eqn:E.
      * now apply fold_declareTable_lookup_set.
      * now apply fold_declareTable_lookup_kept.
  - destruct (existsb (fun d => streq (group 1 d) proto_name) ds) eqn:E.
    + now apply fold_declareTable_proto_set.
    + now apply fold_declareTable_proto_kept.
Qed.

Lemma parseFile_table st content :
  fst (parseFile st content)
  = fold_left declareTable (execAll variableRegex content) (fst st).
Proof. unfold parseFile. cbn [fst]. apply fst_fold_declareVariable. Qed.

Lemma parseFile_twice st content :
  NoDup (map fst (own (fst st))) ->
  parseFile (parseFile st content) content = parseFile st content.
Proof.
  intros Hnd.
  assert (Et : fst (parseFile (parseFile st content) content)
               = fst (parseFile st content)).
  { rewrite (parseFile_table (parseFile st content)), parseFile_table.
    now apply fold_declareTable_twice. }
  assert (Ec : snd (parseFile (parseFile st content) content)
               = snd (parseFile st content)).
  { apply grows_stable; [apply parseFile_grows|].
    intros x Hx. apply parseFile_in in Hx as [Hx|Hx]; [assumption|].
    apply parseFile_in. right.
    destruct Hx as [Hx|[(mm & Hin & Hx)|Hx]].
    - now left.
    - right. left. exists mm. split; [assumption|]. now rewrite Et in Hx.
    - now right; right. }
  destruct (parseFile (parseFile st content) content), (parseFile st content).
  simpl in *. now subst.
Qed.

Lemma fold_parseFile_NoDup files : forall st,
  NoDup (map fst (own (fst st))) ->
  NoDup (map fst (own (fst (fold_left parseFile files st)))).
Proof.
  induction files as [|f files IH]; intros st H; simpl; [assumption|].
  apply IH. rewrite parseFile_table. now apply fold_declareTable_NoDup.
Qed.

End RescanFacts.

(** ** The earlier engine *)

Module ServerFacts.
Import Js JsFacts Engine Yields EngineFacts More GrowthFacts.

Lemma addEntries_eq variableContent classNames :
  ServerTs.addEntries variableContent classNames
  = addClassesFromVariable variableContent classNames.
Proof. reflexivity. Qed.

Lemma admits_refl a : admits a a.
Proof. split; [apply grows_refl|auto]. Qed.

Lemma admits_trans a b c : admits a b -> admits b c -> admits a c.
Proof.
  intros [G1 V1] [G2 V2]. split; [eapply grows_trans; eassumption|].
  intros x Hx. apply V2 in Hx as [Hx|Hx]; auto.
Qed.

Lemma admits_guarded_add y a :
  admits a (if isValidClassName y then set_add y a else a).
Proof.
  split; [apply guarded_add_grows|].
  intros c Hc. apply guarded_add_in in Hc as [Hc|[_ Hc]]; auto.
Qed.

Lemma admits_addEntries variableContent a :
  admits a (ServerTs.addEntries variableContent a).
Proof.
  rewrite addEntries_eq. split; [apply addClassesFromVariable_grows|].
  intros c Hc. apply addClassesFromVariable_in in Hc as [Hc|(e & _ & _ & _ & Hv)];
    auto.
Qed.

Lemma admits_addClassesFromVariable content variableName a a' :
  ServerTs.addClassesFromVariable content variableName a = Some a' ->
  admits a a'.
Proof.
  unfold ServerTs.addClassesFromVariable.
  destruct (ServerTs.variableRegexFor variableName); [|discriminate].
  destruct (exec _ content); intros H; injection H as <-;
    [apply admits_addEntries|apply admits_refl].
Qed.

Lemma admits_processMixin content a mixinMatch a' :
  ServerTs.processMixin content (Some a) mixinMatch = Some a' -> admits a a'.
Proof.
  unfold ServerTs.processMixin, ServerTs.bind.
  destruct (_ || _); [|intros H; injection H as <-; apply admits_refl].
  destruct (_ && _).
  - intros H. apply admits_addClassesFromVariable in H.
    eapply admits_trans; [apply admits_guarded_add|exact H].
  - intros H. injection H as <-. apply admits_guarded_add.
Qed.

Lemma fold_processMixin_none content l :
  fold_left (ServerTs.processMixin content) l None = None.
Proof. induction l; simpl; auto. Qed.

Lemma fold_parseFile_none files : fold_left ServerTs.parseFile files None = None.
Proof. induction files; simpl; auto. Qed.

Lemma admits_fold_processMixin content l : forall a a',
  fold_left (ServerTs.processMixin content) l (Some a) = Some a' -> admits a a'.
Proof.
  induction l as [|x l IH]; intros a a' H; cbn [fold_left] in H.
  - injection H as <-. apply admits_refl.
  - destruct (ServerTs.processMixin content (Some a) x) as [a1|] eqn:E.
    + eapply admits_trans; [eapply admits_processMixin; eassumption|].
      now apply IH.
    + rewrite fold_processMixin_none in H. discriminate.
Qed.

Lemma admits_fold_addEntries l : forall a,
  admits a (fold_left (fun classNames variableMatch =>
                         ServerTs.addEntries (group 2 variableMatch) classNames)
              l a).
Proof.
  induction l as [|x l IH]; intros a; simpl; [apply admits_refl|].
  eapply admits_trans; [apply admits_addEntries|apply IH].
Qed.

Lemma admits_parseFile a content a' :
  ServerTs.parseFile (Some a) content = Some a' -> admits a a'.
Proof.
  unfold ServerTs.parseFile, ServerTs.bind. intros H.
  apply admits_fold_processMixin in H.
  eapply admits_trans; [apply admits_fold_addEntries|exact H].
Qed.

Lemma admits_pass files : forall a a',
  fold_left ServerTs.parseFile files (Some a) = Some a' -> admits a a'.
Proof.
  induction files as [|f files IH]; intros a a' H; cbn [fold_left] in H.
  - injection H as <-. apply admits_refl.
  - destruct (ServerTs.parseFile (Some a) f) as [a1|] eqn:E.
    + eapply admits_trans; [eapply admits_parseFile; eassumption|].
      now apply IH.
    + rewrite fold_parseFile_none in H. discriminate.
Qed.

(** *** Each step adds the same whatever was collected before *)

Lemma sameYield_guarded_add y a :
  forall c,
    In c (if isValidClassName y then set_add y a else a)
    <-> In c a \/ In c (if isValidClassName y then set_add y [] else []).
Proof.
  intros c. rewrite !guarded_add_in. simpl. tauto.
Qed.

Lemma sameYield_addEntries variableContent a :
  forall c,
    In c (ServerTs.addEntries variableContent a)
    <-> In c a \/ In c (ServerTs.addEntries variableContent []).
Proof.
  intros c. rewrite !addEntries_eq, !addClassesFromVariable_in. simpl. tauto.
Qed.

Lemma sameYield_processMixin content mixinMatch a :
  sameYield a (ServerTs.processMixin content (Some a) mixinMatch)
              (ServerTs.processMixin content (Some []) mixinMatch).
Proof.
  unfold ServerTs.processMixin, ServerTs.bind.
  destruct (_ || _); [|simpl; tauto].
  set (prefix := trim (stripQuotes _)).
  pose proof (sameYield_guarded_add prefix a) as Hp.
  destruct (_ && _); [|exact Hp].
  unfold ServerTs.addClassesFromVariable.
  destruct (ServerTs.variableRegexFor _); [|exact I].
  destruct (exec _ content) as [groups|]; [|exact Hp].
  intros c. rewrite sameYield_addEntries, Hp.
  rewrite (sameYield_addEntries (group 1 groups)
             (if isValidClassName prefix then set_add prefix [] else [])).
  tauto.
Qed.

Lemma sameYield_fold (B : Type)
      (F : option (list jsstring) -> B -> option (list jsstring)) :
  (forall b, F None b = None) ->
  (forall b a, sameYield a (F (Some a) b) (F (Some []) b)) ->
  forall l a, sameYield a (fold_left F l (Some a)) (fold_left F l (Some [])).
Proof.
  intros Hnone HF.
  assert (Hfn : forall l, fold_left F l None = None).
  { induction l as [|b l IH]; simpl; [reflexivity|]. now rewrite Hnone. }
  induction l as [|b l IH]; intros a; cbn [fold_left].
  - intros c. simpl. tauto.
  - pose proof (HF b a) as H. unfold sameYield in H.
    destruct (F (Some a) b) as [a1|], (F (Some []) b) as [y1|];
      try contradiction.
    + pose proof (IH a1) as H1. pose proof (IH y1) as H2.
      unfold sameYield in *.
      destruct (fold_left F l (Some a1)) as [a2|],
               (fold_left F l (Some y1)) as [y2|],
               (fold_left F l (Some [])) as [z|]; try contradiction; auto.
      intros c. rewrite H1, H2, H. tauto.
    + rewrite Hfn. exact I.
Qed.

Lemma sameYield_parseFile content a :
  sameYield a (ServerTs.parseFile (Some a) content)
              (ServerTs.parseFile (Some []) content).
Proof.
  unfold ServerTs.parseFile, ServerTs.bind.
  set (F := ServerTs.processMixin content).
  set (G := fun classNames variableMatch =>
              ServerTs.addEntries (group 2 variableMatch) classNames).
  set (vs := execAll ServerTs.variableRegex content).
  set (ms := execAll ServerTs.mixinCallRegex content).
  assert (HG : forall l a c,
             In c (fold_left G l a) <-> In c a \/ In c (fold_left G l [])).
  { intros l a0 c.
    rewrite !(@fold_left_in_iff _ G
                (fun variableMatch c =>
                   In c (ServerTs.addEntries (group 2 variableMatch) [])))
      by (intros; apply sameYield_addEntries).
    simpl. tauto. }
  assert (HF : forall a0, sameYield a0 (fold_left F ms (Some a0))
                                       (fold_left F ms (Some []))).
  { apply sameYield_fold; [reflexivity|].
    intros b a0. apply sameYield_processMixin. }
  pose proof (HF (fold_left G vs a)) as H1.
  pose proof (HF (fold_left G vs [])) as H2.
  unfold sameYield in *.
  destruct (fold_left F ms (Some (fold_left G vs a))) as [x|],
           (fold_left F ms (Some (fold_left G vs []))) as [y|],
           (fold_left F ms (Some [])) as [z|]; try contradiction; auto.
  intros c. rewrite H1, H2, (HG vs a c). tauto.
Qed.

Lemma pass_yields files : forall a out,
  fold_left ServerTs.parseFile files (Some a) = Some out ->
  forall c,
    In c out
    <-> In c a
        \/ exists content out1,
             In content files
             /\ ServerTs.parseScssFiles [content] = Some out1 /\ In c out1.
Proof.
  induction files as [|f files IH]; intros a out H c; cbn [fold_left] in H.
  - injection H as <-. split; [auto|].
    intros [Hc|(x & y & [] & _)]. assumption.
  - pose proof (sameYield_parseFile f a) as Hs. unfold sameYield in Hs.
    destruct (ServerTs.parseFile (Some a) f) as [a1|] eqn:E1;
      [|rewrite fold_parseFile_none in H; discriminate].
    destruct (ServerTs.parseFile (Some []) f) as [y1|] eqn:E2;
      [|contradiction].
    rewrite (IH a1 out H c), Hs. split.
    + intros [[Hc|Hc]|(x & o & Hin & Hx & Hc)]; auto.
      * right. exists f, y1. split; [now left|]. split; [exact E2|assumption].
      * right. exists x, o. split; [now right|]. split; assumption.
    + intros [Hc|(x & o & [<-|Hin] & Hx & Hc)]; auto.
      * unfold ServerTs.parseScssFiles in Hx. cbn [fold_left] in Hx.
        rewrite E2 in Hx. injection Hx as <-. auto.
      * right. exists x, o. auto.
Qed.

(** *** Where the two engines agree *)

Lemma agree_on_declarations files : forall variables classNames,
  (forall content, In content files ->
     execAll mixinCallRegex content = [] /\ execAll classRegex content = []) ->
  fold_left ServerTs.parseFile files (Some classNames)
  = Some (snd (fold_left parseFile files (variables, classNames))).
Proof.
  induction files as [|f files IH]; intros variables classNames H;
    cbn [fold_left]; [reflexivity|].
  destruct (H f (or_introl eq_refl)) as [Hm Hc].
  assert (E : ServerTs.parseFile (Some classNames) f
              = Some (snd (parseFile (variables, classNames) f))).
  { unfold ServerTs.parseFile, ServerTs.bind, parseFile.
    change ServerTs.mixinCallRegex with mixinCallRegex.
    change ServerTs.variableRegex with variableRegex.
    rewrite Hm, Hc. cbn [fold_left snd].
    now rewrite snd_fold_declareVariable. }
  rewrite E.
  destruct (parseFile (variables, classNames) f) as [variables' classNames'] eqn:Ep.
  apply IH. intros content Hin. apply H. now right.
Qed.

End ServerFacts.

(** ** Further properties of the code *)

Import More Host.

(** X1. The result of [parseScssFiles] holds no string twice. *)
Theorem result_without_duplicates (files : list jsstring) :
  NoDup (parseScssFiles files).
Proof.
  destruct (GrowthFacts.fold_parseFile_grows files (emptyObject, []))
    as (extra & E & Hnd & _).
  unfold parseScssFiles. rewrite E. exact Hnd.
Qed.

(** X2. Files added at the end of the list leave the strings the earlier
    files gave where they were: the result for the longer list is the
    result for the shorter one followed by strings that are new. *)
Theorem earlier_results_kept (files more : list jsstring) :
  exists extra,
    parseScssFiles (files ++ more) = parseScssFiles files ++ extra
    /\ (forall x, In x extra -> ~ In x (parseScssFiles files)).
Proof.
  unfold parseScssFiles. rewrite fold_left_app.
  destruct (GrowthFacts.fold_parseFile_grows more
              (fold_left parseFile files (emptyObject, [])))
    as (extra & E & _ & Hd).
  exists extra. split; assumption.
Qed.

(** X3. A letter or an underscore followed by letters, digits, underscores
    and hyphens always passes [isValidClassName]. *)
Theorem identifiers_pass_filter (c : char) (t : jsstring) :
  is_name_start c = true -> forallb is_ident t = true ->
  isValidClassName (c :: t) = true.
Proof.
  intros Hc Ht. apply FilterFacts.isValidClassName_true_iff.
  now apply FilterMore.identifier_not_rejected.
Qed.

(** X3 at [btn-red-1]. *)
Lemma identifiers_pass_filter_witness :
  isValidClassName (chr "b" :: str "tn-red-1") = true.
Proof.
  apply identifiers_pass_filter; reflexivity.
Defined.

(** X4. Three of the ten patterns of [invalidPatterns] never decide: the
    filter answers the same without the pattern for a leading dollar
    sign, the pattern for a size and the pattern for a number. *)
Theorem three_patterns_never_decide (name : jsstring) :
  isValidClassName name
  = negb (existsb (fun pattern => test pattern name) decidingPatterns).
Proof.
  destruct (isValidClassName name) eqn:E1;
    destruct (existsb (fun pattern => test pattern name) decidingPatterns) eqn:E2;
    try reflexivity; exfalso.
  - apply FilterMore.decidingPatterns_false_iff in E2.
    apply FilterFacts.isValidClassName_true_iff in E1. contradiction.
  - apply FilterFacts.isValidClassName_false_iff in E1.
    apply FilterMore.decidingPatterns_false_iff in E1. congruence.
Qed.

(** X5. The keys of the map [parseVariableContent] builds are the keys of
    the entries of the body, [__proto__] left out, each once. *)
Theorem parsed_map_keys (content key : jsstring) :
  (In key (ownKeys (parseVariableContent content))
   <-> key <> proto_name
       /\ exists entry, In entry (entriesOf content) /\ entryKey entry = key)
  /\ NoDup (ownKeys (parseVariableContent content)).
Proof.
  rewrite TableFacts.parseVariableContent_fold. split.
  - rewrite JsFacts.ownKeys_in, TableFacts.fold_entries_keys. simpl. tauto.
  - apply TableFacts.ownKeys_NoDup, TableFacts.fold_entries_NoDup. constructor.
Qed.



(** X7. When [ds4-scale-class] has three arguments or more and the second
    and third resolve, what the invocation adds is the first argument
    followed by a key of the first map, a hyphen and a key of the second,
    for every pair of keys whose product passes the filter. *)
Theorem cross_product_expansion
        (mixinArgs : jsstring) (variables : dictionary)
        (classNames : list jsstring) (c : jsstring) :
  3 <= length (mixinArguments mixinArgs) ->
  truthy (get variables (nth 1 (mixinArguments mixinArgs) [])) = true ->
  truthy (get variables (nth 2 (mixinArguments mixinArgs) [])) = true ->
  In c (processMixinCall (str "ds4-scale-class") mixinArgs variables classNames)
  <-> In c classNames
      \/ exists key scaleKey,
           In key (objectKeys (get variables (nth 1 (mixinArguments mixinArgs) [])))
           /\ In scaleKey
                (objectKeys (get variables (nth 2 (mixinArguments mixinArgs) [])))
           /\ nth 0 (mixinArguments mixinArgs) [] ++ key ++ str "-" ++ scaleKey = c
           /\ isValidClassName c = true.
Proof.
  intros Hlen Hmap Hscales.
  change (processMixinCall (str "ds4-scale-class") mixinArgs variables classNames)
    with (if 3 <=? length (mixinArguments mixinArgs) then
            if truthy (get variables (nth 1 (mixinArguments mixinArgs) []))
               && truthy (get variables (nth 2 (mixinArguments mixinArgs) []))
            then
              fold_left
                (fun classNames key =>
                   fold_left
                     (fun classNames scaleKey =>
                        if isValidClassName
                             (nth 0 (mixinArguments mixinArgs) [] ++ key
                              ++ str "-" ++ scaleKey)
                        then set_add (nth 0 (mixinArguments mixinArgs) [] ++ key
                                      ++ str "-" ++ scaleKey) classNames
                        else classNames)
                     (objectKeys (get variables (nth 2 (mixinArguments mixinArgs) [])))
                     classNames)
                (objectKeys (get variables (nth 1 (mixinArguments mixinArgs) [])))
                classNames
            else classNames
          else classNames).
  apply Nat.leb_le in Hlen. rewrite Hlen, Hmap, Hscales. cbn [andb].
  set (name := nth 0 (mixinArguments mixinArgs) []).
  set (scaleKeys := objectKeys (get variables (nth 2 (mixinArguments mixinArgs) []))).
  rewrite (@EngineFacts.fold_left_in_iff _ _
             (fun key c => exists scaleKey,
                  In scaleKey scaleKeys
                  /\ name ++ key ++ str "-" ++ scaleKey = c
                  /\ isValidClassName c = true)).
  - split.
    + intros [H|(key & Hk & scaleKey & Hs & E & Hv)]; [now left|].
      right. exists key, scaleKey. auto.
    + intros [H|(key & scaleKey & Hk & Hs & E & Hv)]; [now left|].
      right. exists key. split; [assumption|]. exists scaleKey. auto.
  - intros key cls x.
    apply (@EngineFacts.fold_left_in_iff _ _
             (fun scaleKey c => name ++ key ++ str "-" ++ scaleKey = c
                                /\ isValidClassName c = true)).
    intros scaleKey cls' x'. apply EngineFacts.guarded_add_in.
Qed.

(** X7 at the two maps of the example and [btn-red-1]. *)
Lemma cross_product_expansion_witness :
  In (str "btn-red-1")
     (processMixinCall (str "ds4-scale-class")
        (quoted (str "btn-") ++ str ", color, scale") (tableAfter [mapsUnit]) [])
  <-> In (str "btn-red-1") []
      \/ exists key scaleKey,
           In key (objectKeys
                     (get (tableAfter [mapsUnit])
                        (nth 1 (mixinArguments
                                  (quoted (str "btn-") ++ str ", color, scale")) [])))
           /\ In scaleKey
                (objectKeys
                   (get (tableAfter [mapsUnit])
                      (nth 2 (mixinArguments
                                (quoted (str "btn-") ++ str ", color, scale")) [])))
           /\ nth 0 (mixinArguments (quoted (str "btn-") ++ str ", color, scale")) []
              ++ key ++ str "-" ++ scaleKey = str "btn-red-1"
           /\ isValidClassName (str "btn-red-1") = true.
Proof.
  apply cross_product_expansion.
  - vm_compute. lia.
  - reflexivity.
  - reflexivity.
Defined.



(** X9. As long as no declaration is named [__proto__], an invocation
    whose map-name argument holds a dollar sign adds nothing: the table
    stores maps under identifiers only. *)
Theorem sigil_argument_never_resolves
        (files : list jsstring) (mixinName mixinArgs : jsstring)
        (classNames : list jsstring) :
  (forall variableMatch, In variableMatch (declarations files) ->
                         group 1 variableMatch <> proto_name) ->
  (In mixinName secondArgumentConventions ->
   In (chr "$") (nth 1 (mixinArguments mixinArgs) [])) ->
  (In mixinName firstArgumentConventions ->
   In (chr "$") (nth 0 (mixinArguments mixinArgs) [])) ->
  processMixinCall mixinName mixinArgs (tableAfter files) classNames = classNames.
Proof.
  intros Hp H2 H1.
  apply EngineFacts.processMixinCall_undeclared.
  - now apply NameFacts.proto_untouched.
  - intros ->. left. apply NameFacts.sigil_undeclared. apply H2. now left.
  - intros [-> | ->]; apply NameFacts.sigil_undeclared; apply H2;
      unfold secondArgumentConventions; simpl; tauto.
  - intros [-> | ->]; apply NameFacts.sigil_undeclared; apply H1;
      unfold firstArgumentConventions; simpl; tauto.
Qed.

(** X9 at [@include style-class(font-, $sizes);]. *)
Lemma sigil_argument_never_resolves_witness :
  processMixinCall (str "style-class") (str "font-, $sizes")
    (tableAfter [sigilUnit]) [str "sm"; str "lg"]
  = [str "sm"; str "lg"].
Proof.
  apply (@sigil_argument_never_resolves [sigilUnit]).
  - intros vm H. vm_compute in H. destruct H as [<-|[]]. discriminate.
  - intros _. vm_compute. auto.
  - intros H. vm_compute in H. destruct H as [H|[H|[]]]; discriminate.
Defined.

(** X10. A file made of well-formed declarations, whose bodies hold no
    closing parenthesis and between which no dollar sign occurs, is read
    back declaration by declaration, and every non-empty key of every
    body that passes the filter is in the result of a pass over the file. *)
Theorem declarations_read_back (gap0 : jsstring) (ds : list declaration) :
  Forall wellFormedDeclaration ds ->
  ~ In (chr "$") gap0 ->
  execAll variableRegex (declarationsText gap0 ds)
  = map (fun d => [d_name d; d_body d]) ds
  /\ (forall files d key,
         In (declarationsText gap0 ds) files -> In d ds ->
         In key (ownKeys (parseVariableContent (d_body d))) ->
         key <> [] -> isValidClassName key = true ->
         In key (parseScssFiles files)).
Proof.
  intros Hwf Hgap.
  assert (E : execAll variableRegex (declarationsText gap0 ds)
              = map (fun d => [d_name d; d_body d]) ds).
  { apply PatternFacts.execLoop_declarations; try assumption.
    pose proof (PatternFacts.declarationsText_length ds gap0). lia. }
  split; [exact E|].
  intros files d key Hf Hd Hk Hne Hv.
  apply in_split in Hf as (earlier & later & ->).
  apply EngineFacts.parseScssFiles_yields. left.
  apply EngineFacts.parseVariableContent_keys in Hk as (entry & He & Ek).
  exists [d_name d; d_body d], entry. split; [|split].
  - rewrite E. apply in_map_iff. now exists d.
  - exact He.
  - now apply (EngineFacts.table_key_yielded entry Ek).
Qed.

(** X10 at the spacing map. *)
Lemma declarations_read_back_witness :
  execAll variableRegex
    (declarationsText []
       [mkDeclaration (str "spacing") (str " ") (str "sm: 4px, lg: 16px")
          (str " ") []])
  = map (fun d => [d_name d; d_body d])
      [mkDeclaration (str "spacing") (str " ") (str "sm: 4px, lg: 16px")
         (str " ") []]
  /\ (forall files d key,
         In (declarationsText []
               [mkDeclaration (str "spacing") (str " ") (str "sm: 4px, lg: 16px")
                  (str " ") []]) files ->
         In d [mkDeclaration (str "spacing") (str " ") (str "sm: 4px, lg: 16px")
                 (str " ") []] ->
         In key (ownKeys (parseVariableContent (d_body d))) ->
         key <> [] -> isValidClassName key = true ->
         In key (parseScssFiles files)).
Proof.
  apply declarations_read_back.
  - constructor; [|constructor].
    unfold wellFormedDeclaration. cbn [d_name d_ws d_body d_ws' d_gap].
    conjuncts; try reflexivity; try discriminate;
      vm_compute; intuition discriminate.
  - intros [].
Defined.

(** X11. A file made of well-formed invocations, each on one line, whose
    argument texts hold no closing parenthesis followed by a semicolon
    and between which no at sign occurs, is read back invocation by
    invocation. *)
Theorem invocations_read_back (gap0 : jsstring) (vs : list invocation) :
  Forall wellFormedInvocation vs ->
  ~ In (chr "@") gap0 ->
  execAll mixinCallRegex (invocationsText gap0 vs)
  = map (fun v => [i_name v; i_args v]) vs.
Proof.
  intros Hwf Hgap. apply PatternFacts.execLoop_invocations; try assumption.
  pose proof (PatternFacts.invocationsText_length vs gap0). lia.
Qed.

(** The argument text of the example closes nowhere. *)
Lemma example_arguments_unclosed : unclosed (str "btn-, color, scale").
Proof.
  intros x y E.
  assert (H : In (chr ")") (str "btn-, color, scale")).
  { rewrite E. apply in_or_app. right. now left. }
  vm_compute in H. intuition discriminate.
Qed.

(** X11 at one invocation. *)
Lemma invocations_read_back_witness :
  execAll mixinCallRegex
    (invocationsText []
       [mkInvocation (str " ") (str "ds4-scale-class") (str "btn-, color, scale") []])
  = map (fun v => [i_name v; i_args v])
      [mkInvocation (str " ") (str "ds4-scale-class") (str "btn-, color, scale") []].
Proof.
  apply invocations_read_back.
  - constructor; [|constructor].
    unfold wellFormedInvocation. cbn [i_ws i_name i_args i_gap].
    conjuncts; try reflexivity; try discriminate.
    + apply example_arguments_unclosed.
    + intros [].
  - intros [].
Defined.

(** X12. A file that does not hold the text [!default;] declares nothing:
    the table is left as it was and the loop over the declarations adds
    no name. *)
Theorem no_marker_no_declaration (earlier : list jsstring) (content : jsstring) :
  ~ holds (str "!default;") content ->
  execAll variableRegex content = []
  /\ tableAfter (earlier ++ [content]) = tableAfter earlier
  /\ afterDeclarations earlier content = parseScssFiles earlier.
Proof.
  intros H. apply PatternFacts.execAll_without_marker in H.
  split; [exact H|]. split.
  - unfold tableAfter. rewrite fold_left_app. cbn [fold_left].
    rewrite RescanFacts.parseFile_table, H. reflexivity.
  - unfold afterDeclarations. rewrite H. reflexivity.
Qed.

(** X12 at a map declared without the marker. *)
Lemma no_marker_no_declaration_witness :
  execAll variableRegex plainMapUnit = []
  /\ tableAfter ([] ++ [plainMapUnit]) = tableAfter []
  /\ afterDeclarations [] plainMapUnit = parseScssFiles [].
Proof.
  apply no_marker_no_declaration.
  rewrite PatternFacts.holds_test. vm_compute. discriminate.
Defined.





(** X15. On files in which the scan finds no invocation and no literal
    selector the two versions of the engine return the same list. *)
Theorem engines_agree_on_declarations (files : list jsstring) :
  (forall content, In content files ->
     execAll mixinCallRegex content = [] /\ execAll classRegex content = []) ->
  ServerTs.parseScssFiles files = Some (parseScssFiles files).
Proof.
  intros H. unfold ServerTs.parseScssFiles, parseScssFiles.
  now apply ServerFacts.agree_on_declarations.
Qed.

(** X15 at the spacing map. *)
Lemma engines_agree_on_declarations_witness :
  ServerTs.parseScssFiles [spacingMap] = Some (parseScssFiles [spacingMap]).
Proof.
  apply engines_agree_on_declarations.
  intros content [<-|[]]. split; vm_compute; reflexivity.
Defined.

(** X16. A file that occurs twice in a row in the list counts once:
    reading it again changes neither the table nor the names. *)
Theorem rescan_changes_nothing
        (files : list jsstring) (content : jsstring) (later : list jsstring) :
  parseScssFiles (files ++ content :: content :: later)
  = parseScssFiles (files ++ content :: later).
Proof.
  unfold parseScssFiles. rewrite !fold_left_app. cbn [fold_left].
  rewrite RescanFacts.parseFile_twice; [reflexivity|].
  apply RescanFacts.fold_parseFile_NoDup. constructor.
Qed.


(** X18. A literal selector whose name begins with a letter or an
    underscore is always in the result: wherever a file holds a dot, such
    a name, optional white space and an opening brace. *)
Theorem named_selectors_extracted
        (files : list jsstring) (content pre : jsstring) (c : char)
        (t ws post : jsstring) :
  In content files ->
  content = pre ++ chr "." :: (c :: t) ++ ws ++ chr "{" :: post ->
  is_name_start c = true -> forallb is_ident t = true ->
  forallb is_space ws = true ->
  In (c :: t) (parseScssFiles files).
Proof.
  intros Hf E Hc Ht Hws.
  apply in_split in Hf as (earlier & later & ->).
  apply EngineFacts.parseScssFiles_yields. right. right.
  exists [c :: t]. split; [|split; [reflexivity|]].
  - apply (@EngineFacts.classRegex_finds_selector content pre (c :: t) ws post).
    + rewrite E. unfold selector. cbn [app]. now rewrite <- !app_assoc.
    + discriminate.
    + cbn [forallb]. now rewrite (FilterMore.name_start_ident _ Hc).
    + assumption.
  - apply FilterFacts.isValidClassName_true_iff.
    now apply FilterMore.identifier_not_rejected.
Qed.

(** X18 at the selector of the example. *)
Lemma named_selectors_extracted_witness :
  In (chr "b" :: str "utton-primary") (parseScssFiles [buttonPrimary]).
Proof.
  apply (@named_selectors_extracted [buttonPrimary] buttonPrimary []
           (chr "b") (str "utton-primary") (str " ") (str " color: red; }")).
  - now left.
  - reflexivity.
  - reflexivity.
  - reflexivity.
  - reflexivity.
Defined.

(** ** What the scans report is in the text *)

Module OccurFacts.
Import Js JsFacts Engine Yields EngineFacts More GrowthFacts.

Lemma execLoop_occurs r : forall n s i groups,
  In groups (execLoop n r i s) ->
  exists pre w post j c,
    s = pre ++ w ++ post /\ matches r j w post c /\ groups = rev c.
Proof.
  induction n as [|n IH]; intros s i groups H; simpl in H; [contradiction|].
  destruct (search r i s) as [[caps cur]|] eqn:Hs; [|contradiction].
  apply search_match in Hs as (pre & w & c & E & M & -> & _).
  destruct H as [<-|H].
  - now exists pre, w, (rest cur), (i + length pre), c.
  - apply IH in H as (pre' & w' & post' & j & c' & E' & M' & ->).
    exists (pre ++ w ++ pre'), w', post', j, c'.
    split; [|now split]. rewrite E, E'. now rewrite <- !app_assoc.
Qed.

Lemma variableRegex_text i w s' c :
  matches variableRegex i w s' c ->
  exists name ws body ws',
    w = declarationText name ws body ws' /\ c = [body; name]
    /\ name <> [] /\ forallb is_ident name = true
    /\ forallb is_space ws = true /\ forallb is_space ws' = true.
Proof.
  unfold variableRegex. cbn [sequence]. intros M. read_all.
  match goal with
  | Hi : forallb is_ident ?n = true, Ha : forallb is_any ?b = true,
    H1 : forallb is_space ?a1 = true, H2 : forallb is_space ?a2 = true |- _ =>
      first [ exists n, a1, b, a2; split; [unfold declarationText;
                repeat (rewrite <- app_comm_cons || rewrite <- app_assoc);
                reflexivity|]
            | exists n, a2, b, a1; split; [unfold declarationText;
                repeat (rewrite <- app_comm_cons || rewrite <- app_assoc);
                reflexivity|] ]
  end.
  repeat split; assumption.
Qed.

Lemma mixinCallRegex_whole i w s' c :
  matches mixinCallRegex i w s' c ->
  exists ws name args,
    w = invocationText ws name args /\ c = [args; name]
    /\ ws <> [] /\ forallb is_space ws = true
    /\ name <> [] /\ forallb is_ident name = true
    /\ forallb is_dot args = true.
Proof.
  unfold mixinCallRegex. cbn [sequence]. intros M. read_all.
  match goal with
  | Hs : forallb is_space ?a = true, Hi : forallb is_ident ?b = true,
    Hd : forallb is_dot ?d = true |- _ => exists a, b, d
  end.
  split; [|repeat split; assumption].
  unfold invocationText.
  repeat (rewrite <- app_comm_cons || rewrite <- app_assoc). reflexivity.
Qed.

(** The names a file adds, by the loop that adds them. *)
Lemma grows_new (F : list jsstring -> list jsstring)
      (Q : jsstring -> Prop) a :
  grows a (F a) ->
  (forall c, In c (F a) -> In c a \/ Q c) ->
  exists extra, F a = a ++ extra /\ (forall c, In c extra -> Q c).
Proof.
  intros (extra & E & _ & Hd) HQ. exists extra. split; [assumption|].
  intros c Hc. destruct (HQ c) as [H|H]; [rewrite E; apply in_or_app; now right| |assumption].
  exfalso. now apply (Hd c).
Qed.

End OccurFacts.

(** X19. The names a file adds come in the order of the three loops:
    first those of the declarations, then those of the invocations,
    then those of the literal selectors, after all the names of the
    files before it. *)
Theorem names_in_order_of_the_loops (earlier : list jsstring) (content : jsstring) :
  exists fromDeclarations fromInvocations fromSelectors,
    parseScssFiles (earlier ++ [content])
    = parseScssFiles earlier ++ fromDeclarations ++ fromInvocations
      ++ fromSelectors
    /\ (forall c, In c fromDeclarations ->
          exists variableMatch entry,
            In variableMatch (execAll variableRegex content)
            /\ In entry (entriesOf (group 2 variableMatch))
            /\ entryYields entry c)
    /\ (forall c, In c fromInvocations ->
          exists mixinMatch,
            In mixinMatch (execAll mixinCallRegex content)
            /\ In c (expandMixin (tableAfter (earlier ++ [content])) [] mixinMatch))
    /\ (forall c, In c fromSelectors ->
          exists classMatch,
            In classMatch (execAll classRegex content)
            /\ group 1 classMatch = c).
Proof.
  unfold parseScssFiles, tableAfter. rewrite !fold_left_app. cbn [fold_left].
  set (st := fold_left parseFile earlier (emptyObject, [])).
  set (F1 := fun classNames =>
               fold_left (fun classNames variableMatch =>
                            addClassesFromVariable (group 2 variableMatch) classNames)
                 (execAll variableRegex content) classNames).
  set (F2 := fun classNames =>
               fold_left (expandMixin (fst (parseFile st content)))
                 (execAll mixinCallRegex content) classNames).
  set (F3 := fun classNames =>
               fold_left addSelector (execAll classRegex content) classNames).
  assert (E : snd (parseFile st content) = F3 (F2 (F1 (snd st)))).
  { unfold parseFile at 1. cbn [snd]. unfold F3, F2, F1.
    now rewrite EngineFacts.snd_fold_declareVariable. }
  rewrite E.
  destruct (@OccurFacts.grows_new F1
              (fun c => exists variableMatch entry,
                   In variableMatch (execAll variableRegex content)
                   /\ In entry (entriesOf (group 2 variableMatch))
                   /\ entryYields entry c) (snd st))
    as (e1 & E1 & H1).
  { apply GrowthFacts.fold_left_grows. intros.
    apply GrowthFacts.addClassesFromVariable_grows. }
  { intros c Hc. unfold F1 in Hc.
    apply (@EngineFacts.fold_left_in_iff _ _
             (fun variableMatch c =>
                exists entry,
                  In entry (map trim (split comma (group 2 variableMatch)))
                  /\ entryYields entry c)) in Hc;
      [|intros; apply EngineFacts.addClassesFromVariable_in].
    destruct Hc as [Hc|(vm & Hin & entry & He & Hy)]; [now left|].
    right. now exists vm, entry. }
  destruct (@OccurFacts.grows_new F2
              (fun c => exists mixinMatch,
                   In mixinMatch (execAll mixinCallRegex content)
                   /\ In c (expandMixin (fst (parseFile st content)) [] mixinMatch))
              (F1 (snd st)))
    as (e2 & E2 & H2).
  { apply GrowthFacts.fold_left_grows. intros.
    apply GrowthFacts.processMixinCall_grows. }
  { intros c Hc. unfold F2 in Hc.
    apply (@EngineFacts.fold_left_in_iff _ _
             (fun mixinMatch c =>
                In c (expandMixin (fst (parseFile st content)) [] mixinMatch))) in Hc;
      [exact Hc|intros; apply EngineFacts.processMixinCall_in]. }
  destruct (@OccurFacts.grows_new F3
              (fun c => exists classMatch,
                   In classMatch (execAll classRegex content)
                   /\ group 1 classMatch = c)
              (F2 (F1 (snd st))))
    as (e3 & E3 & H3).
  { apply GrowthFacts.fold_left_grows. intros.
    apply GrowthFacts.guarded_add_grows. }
  { intros c Hc. unfold F3 in Hc.
    apply (@EngineFacts.fold_left_in_iff _ _
             (fun classMatch c =>
                group 1 classMatch = c /\ isValidClassName c = true)) in Hc;
      [|intros; apply EngineFacts.addSelector_in].
    destruct Hc as [Hc|(cm & Hin & Ec & _)]; [now left|].
    right. now exists cm. }
  exists e1, e2, e3. split; [|auto].
  rewrite E3, E2, E1. now rewrite <- !app_assoc.
Qed.

(** X20. The scan for literal selectors reports a name exactly when the
    file holds, somewhere, a dot, that name as a non-empty run of
    identifier characters, optional white space and an opening brace. *)
Theorem selector_scan_exact (content id : jsstring) :
  In [id] (execAll classRegex content)
  <-> id <> [] /\ forallb is_ident id = true
      /\ exists pre ws post,
           forallb is_space ws = true
           /\ content = pre ++ selector id ws ++ post.
Proof.
  split.
  - intros H. apply OccurFacts.execLoop_occurs in H
      as (pre & w & post & j & c & E & M & Eg).
    apply EngineFacts.classRegex_inv in M as (id' & ws & -> & -> & Hne & Hid & Hws).
    injection Eg as ->. split; [assumption|]. split; [assumption|].
    now exists pre, ws, post.
  - intros (Hne & Hid & pre & ws & post & Hws & E).
    now apply (@EngineFacts.classRegex_finds_selector content pre id ws post).
Qed.

(** X21. The scans invent nothing: every declaration they report stands
    in the file as a dollar sign, the name, a colon, the body in
    parentheses and the marker, and every invocation as [@include], the
    name and the arguments in parentheses followed by a semicolon, on one
    line. *)
Theorem reported_matches_occur (content : jsstring) :
  (forall name body,
      In [name; body] (execAll variableRegex content) ->
      name <> [] /\ forallb is_ident name = true
      /\ exists ws ws',
           forallb is_space ws = true /\ forallb is_space ws' = true
           /\ holds (declarationText name ws body ws') content)
  /\ (forall name args,
         In [name; args] (execAll mixinCallRegex content) ->
         name <> [] /\ forallb is_ident name = true
         /\ forallb is_dot args = true
         /\ exists ws,
              ws <> [] /\ forallb is_space ws = true
              /\ holds (invocationText ws name args) content).
Proof.
  split.
  - intros name body H. apply OccurFacts.execLoop_occurs in H
      as (pre & w & post & j & c & E & M & Eg).
    apply OccurFacts.variableRegex_text in M
        as (name' & ws & body' & ws' & -> & -> & Hn0 & Hn & Hws & Hws').
    injection Eg as -> ->. split; [assumption|]. split; [assumption|].
    exists ws, ws'. split; [assumption|]. split; [assumption|].
    now exists pre, post.
  - intros name args H. apply OccurFacts.execLoop_occurs in H
      as (pre & w & post & j & c & E & M & Eg).
    apply OccurFacts.mixinCallRegex_whole in M
        as (ws & name' & args' & -> & -> & Hws0 & Hws & Hn0 & Hn & Hargs).
    injection Eg as -> ->. repeat (split; [assumption|]).
    exists ws. split; [assumption|]. split; [assumption|].
    now exists pre, post.
Qed.
